(** * Wave Function Collapse engine of wfc-map-gen: a shallow embedding

    The hook [useWaveFunctionCollapse] (the repository's [_wfc/index.ts])
    exposes two operations, [setup] and [draw].  This development embeds
    both as Rocq functions over an explicit engine state and proves the
    properties the specification states about them.

    Conventions of the embedding:
    - a JavaScript [Set<number>] is a duplicate-free list in insertion
      order ([forEach] visits it in that order);
    - the [Map] holding the entropies is an association list in insertion
      order (the minimum search visits it in that order); the Wave and the
      adjacency [Map]s, which are only read by key, are [gmap]s;
    - [Math.random()] is a stream of rationals in [0,1) read through a
      position kept in the engine state;
    - entropies are exact rationals (the rounding of the floating-point
      subtraction is not modelled). *)

From Stdlib Require Import ZArith QArith Qround Lia.
From stdpp Require Import gmap list.

Open Scope nat_scope.

(** ** JavaScript values that occur in the engine *)

(** A member of a pattern-id set.  [weightedPatterns[randomIndex]] is
    [undefined] when the pool is empty, and [draw] then stores it in the
    Wave like any id. *)
Inductive pid : Type :=
  | Undefined
  | Pid (n : nat).

#[global] Instance pid_eq_dec : EqDecision pid.
Proof. solve_decision. Defined.

(** [Set<number>]: insertion-ordered, without duplicates. *)
Module JsSet.

Abbreviation t := (list pid).

Definition has (s : t) (x : pid) : bool := bool_decide (x ∈ s).

Definition add (s : t) (x : pid) : t := if has s x then s else s ++ [x].

(** [new Set(iterable)] *)
Definition of_list (l : list pid) : t := foldl add [] l.

Definition size (s : t) : nat := length s.

End JsSet.

(** [Map<K, V>] in insertion order: [set] on a present key keeps its
    position, on an absent key appends. *)
Module JsMap.

Section Ops.
Context {K V : Type} `{EqDecision K}.

Fixpoint get (m : list (K * V)) (k : K) : option V :=
  match m with
  | [] => None
  | (k', v) :: m' => if decide (k' = k) then Some v else get m' k
  end.

Definition has (m : list (K * V)) (k : K) : bool :=
  match get m k with Some _ => true | None => false end.

Fixpoint set (m : list (K * V)) (k : K) (v : V) : list (K * V) :=
  match m with
  | [] => [(k, v)]
  | (k', v') :: m' =>
      if decide (k' = k) then (k', v) :: m' else (k', v') :: set m' k v
  end.

Definition delete (m : list (K * V)) (k : K) : list (K * V) :=
  filter (λ kv, kv.1 ≠ k) m.

Definition size (m : list (K * V)) : nat := length m.
End Ops.

End JsMap.

(** ** The random source *)

(** A value of [Math.random()]: a rational in [0,1). *)
Record unit_q : Type := UnitQ {
  uq : Q;
  uq_range : (0 <= uq)%Q ∧ (uq < 1)%Q
}.

Definition uq_zero : unit_q :=
  UnitQ 0 ltac:(split; [discriminate | reflexivity]).

Definition uq_half : unit_q :=
  UnitQ (1 # 2) ltac:(split; [discriminate | reflexivity]).

(** [Math.floor(Math.random() * n)] *)
Definition random_index (r : unit_q) (n : nat) : nat :=
  Z.to_nat (Qfloor (uq r * inject_Z (Z.of_nat n))).

(** ** Patterns *)

(** A channel read from the [Uint8ClampedArray]; [None] is the
    [undefined] of an out-of-range read ([JSON.stringify] prints it as
    [null]). *)
Definition channel := option Z.
Definition pixel := list channel.
Definition pattern := list (list pixel).

(** Keys of [patternCounts] and [patternIndexMap] are
    [JSON.stringify(pattern)]; two keys are equal exactly when the nested
    arrays are, so the pattern itself serves as the key. *)

Definition flat (p : pattern) : list pixel := concat p.

(** [arr.filter((_, i) => keep i)] *)
Fixpoint filter_index {A} (keep : nat → bool) (i : nat) (l : list A) : list A :=
  match l with
  | [] => []
  | a :: l' =>
      if keep i then a :: filter_index keep (S i) l'
      else filter_index keep (S i) l'
  end.

(** [i % N !== k]; for [N = 0] the remainder is [NaN], which differs from
    every number. *)
Definition rem_differs (N k i : nat) : bool :=
  if N =? 0 then true else negb (i mod N =? k).

Definition isHorizontallyAdjacent (pattern1 pattern2 : pattern) (N : nat) : bool :=
  let flat1 := flat pattern1 in
  let flat2 := flat pattern2 in
  let pattern1LeftEdge := filter_index (rem_differs N (N - 1)) 0 flat1 in
  let pattern2RightEdge := filter_index (rem_differs N 0) 0 flat2 in
  bool_decide (pattern1LeftEdge = pattern2RightEdge).

Definition isVerticallyAdjacent (pattern1 pattern2 : pattern) (N : nat) : bool :=
  let flat1 := flat pattern1 in
  let flat2 := flat pattern2 in
  let pattern1Top := take (N * N - N) flat1 in
  let pattern2Bottom := drop N flat2 in
  bool_decide (pattern1Top = pattern2Bottom).

(** ** Engine state *)

(** The hook's React state.  [draw] reads [wave], [adjacencies] and
    [entropy] and mutates the very objects it read, so whatever it wrote
    before returning is what the next call sees, on every return path. *)
Record engine : Type := Engine {
  wave : gmap nat JsSet.t;
  adjacencies : gmap nat (list JsSet.t);
  entropy : list (nat * Q);
  patterns : list pattern;
  frequencies : list nat;
(** [None]: not a finite number (unset, or a division by a zero width) *)
cellDimensionX : option Z;
cellDimensionY : option Z;
(** how many values of the random source have been consumed *)
rng : nat
}.

Inductive direction : Type := Left | Right | Up | Down.

#[global] Instance direction_eq_dec : EqDecision direction.
Proof. solve_decision. Defined.

(** [directions], in the order the propagation loop visits them *)
Definition directions : list direction := [Left; Right; Up; Down].

Definition vector (d : direction) : Z * Z :=
  match d with
  | Left => (-1, 0)
  | Right => (1, 0)
  | Up => (0, -1)
  | Down => (0, 1)
  end%Z.

Definition directionMapping (d : direction) : nat :=
  match d with Left => 0 | Right => 1 | Up => 2 | Down => 3 end.

Definition opposite (d : direction) : direction :=
  match d with Left => Right | Right => Left | Up => Down | Down => Up end.

(** ** Pattern Library Builder *)

Section Setup.

(** the hook's arguments ([scaleFactor] is not used by the engine) *)
Variables outputDimWidth outputDimHeight patternDim : nat.

Section Extraction.
Variable imageData : list Z.
Variables imageWidth imageHeight : nat.

Definition kernel : list (list nat) :=
  (λ n, (λ i, i + n * imageWidth) <$> seq 0 patternDim) <$> seq 0 patternDim.

Definition read_pixel (pixelIndex : nat) : pixel :=
  [ imageData !! pixelIndex; imageData !! (pixelIndex + 1);
    imageData !! (pixelIndex + 2); imageData !! (pixelIndex + 3) ].

(** the window [cmat] sampled at [(x, y)] *)
Definition cmat (x y : nat) : pattern :=
  (λ row : list nat,
     (λ offset,
        let pixelX := (x + offset) mod imageWidth in
        let pixelY := ((offset + imageWidth * y) / imageWidth) mod imageHeight in
        let pixelIndex := (pixelY * imageWidth + pixelX) * 4 in
        read_pixel pixelIndex) <$> row) <$> kernel.
End Extraction.

(** [rotate90]: [None] is the [TypeError] of [matrix[0].length] on an
    empty matrix.  Every caller passes a window whose rows all have
    [patternDim] entries, so the default of [nth] is never read. *)
Definition rotate90 (matrix : pattern) : option pattern :=
  match matrix with
  | [] => None
  | row0 :: _ =>
      Some ((λ x, (λ row : list pixel, nth x row []) <$> reverse matrix)
              <$> seq 0 (length row0))
  end.

(** the loop [for (let r = 0; r < 4; r++)], with [r] iterations left *)
Fixpoint push_variants (r : nat) (currentPattern : pattern)
    (allPatterns : list pattern) : option (list pattern) :=
  match r with
  | 0 => Some allPatterns
  | S r' =>
      let allPatterns :=
        allPatterns ++
        [currentPattern; reverse currentPattern; reverse <$> currentPattern] in
      currentPattern ← rotate90 currentPattern;
      push_variants r' currentPattern allPatterns
  end.

Definition extract (imageData : list Z) (imageWidth imageHeight : nat)
    : option (list pattern) :=
  foldl (λ acc y,
           foldl (λ acc x,
                    allPatterns ← acc;
                    push_variants 4 (cmat imageData imageWidth imageHeight x y)
                                  allPatterns)
                 acc (seq 0 imageWidth))
        (Some []) (seq 0 imageHeight).

(** *** Deduplication *)

Record library : Type := Library {
  patternCounts : list (pattern * nat);
  uniquePatterns : list pattern;
  patternIndexMap : list (pattern * nat)
}.

Definition count_pattern (lib : library) (p : pattern) : library :=
  match JsMap.get (patternCounts lib) p with
  | Some c =>
      Library (JsMap.set (patternCounts lib) p (c + 1))
              (uniquePatterns lib) (patternIndexMap lib)
  | None =>
      Library (JsMap.set (patternCounts lib) p 1)
              (uniquePatterns lib ++ [p])
              (JsMap.set (patternIndexMap lib) p (length (uniquePatterns lib)))
  end.

Definition deduplicate (allPatterns : list pattern) : library :=
  foldl count_pattern (Library [] [] []) allPatterns.

(** [freqs[index] = count] for every entry of [patternCounts]; every
    index was a length of [uniquePatterns], hence in range. *)
Definition freqs_of (lib : library) : list nat :=
  foldl (λ freqs kc,
           match JsMap.get (patternIndexMap lib) kc.1 with
           | Some index => <[index := kc.2]> freqs
           | None => freqs
           end)
        (replicate (length (uniquePatterns lib)) 0)
        (patternCounts lib).

(** *** Adjacency rules *)

(** [initAdjacencies.get(i)?.[dir].add(j)] *)
Definition add_adjacent (A : gmap nat (list JsSet.t)) (i dir j : nat)
    : gmap nat (list JsSet.t) :=
  alter (alter (λ s, JsSet.add s (Pid j)) dir) i A.

Definition adjacency_step (initPatterns : list pattern)
    (A : gmap nat (list JsSet.t)) (i j : nat) : gmap nat (list JsSet.t) :=
  let pi := default [] (initPatterns !! i) in
  let pj := default [] (initPatterns !! j) in
  let A :=
    if isHorizontallyAdjacent pi pj patternDim
    then add_adjacent (add_adjacent A i 0 j) j 1 i else A in
  if isVerticallyAdjacent pi pj patternDim
  then add_adjacent (add_adjacent A i 2 j) j 3 i else A.

Definition empty_adjacencies (n : nat) : gmap nat (list JsSet.t) :=
  foldl (λ A i, <[i := (λ _, []) <$> directions]> A) ∅ (seq 0 n).

Definition build_adjacencies (initPatterns : list pattern)
    : gmap nat (list JsSet.t) :=
  let n := length initPatterns in
  foldl (λ A i, foldl (λ A j, adjacency_step initPatterns A i j) A (seq 0 n))
        (empty_adjacencies n) (seq 0 n).

(** *** Wave and entropy *)

Definition all_ids (n : nat) : JsSet.t := Pid <$> seq 0 n.

Definition waveInit (n : nat) : gmap nat JsSet.t :=
  foldl (λ w i, <[i := all_ids n]> w) ∅
        (seq 0 (outputDimWidth * outputDimHeight)).

Definition initEntropy (n : nat) (r : unit_q) : list (nat * Q) :=
  let cells := outputDimWidth * outputDimHeight in
  let e := foldl (λ e i, JsMap.set e i (inject_Z (Z.of_nat n))) [] (seq 0 cells) in
  JsMap.set e (random_index r cells) (inject_Z (Z.of_nat n) - 1)%Q.

Definition cell_dimension (canvas output : nat) : option Z :=
  if output =? 0 then None else Some (Z.of_nat (canvas / output)).

(** [setup]; [pos] is the position of the random source on entry and
    [None] the exception [rotate90] throws. *)
Definition setup (rnd : nat → unit_q) (pos : nat) (imageData : list Z)
    (imageWidth imageHeight canvasWidth canvasHeight : nat) : option engine :=
  allPatterns ← extract imageData imageWidth imageHeight;
  let lib := deduplicate allPatterns in
  let numberOfUniquePatterns := length (uniquePatterns lib) in
  Some {|
    wave := waveInit numberOfUniquePatterns;
    adjacencies := build_adjacencies (uniquePatterns lib);
    entropy := initEntropy numberOfUniquePatterns (rnd pos);
    patterns := uniquePatterns lib;
    frequencies := freqs_of lib;
    cellDimensionX := cell_dimension canvasWidth outputDimWidth;
    cellDimensionY := cell_dimension canvasHeight outputDimHeight;
    rng := S pos
  |}.

End Setup.

(** ** Wave Engine *)

Definition with_rng (e : engine) (pos : nat) : engine :=
  Engine (wave e) (adjacencies e) (entropy e) (patterns e) (frequencies e)
         (cellDimensionX e) (cellDimensionY e) pos.

(** [drawWave.set(cell, s)] *)
Definition wave_set (e : engine) (cell : nat) (s : JsSet.t) : engine :=
  Engine (<[cell := s]> (wave e)) (adjacencies e) (entropy e) (patterns e)
         (frequencies e) (cellDimensionX e) (cellDimensionY e) (rng e).

Definition with_entropy (e : engine) (h : list (nat * Q)) : engine :=
  Engine (wave e) (adjacencies e) h (patterns e) (frequencies e)
         (cellDimensionX e) (cellDimensionY e) (rng e).

(** [value < minValue], where [None] is the initial [Infinity] *)
Definition below (value : Q) (minValue : option Q) : bool :=
  match minValue with
  | None => true
  | Some m => if Qlt_le_dec value m then true else false
  end.

Definition findMinEntropyKey (entropyMap : list (nat * Q)) : option nat :=
  (foldl (λ acc kv,
            if below kv.2 acc.2 then (Some kv.1, Some kv.2) else acc)
         (None, None) entropyMap).1.

(** what [selectRandomPattern] returns: [null], or an element of the
    weighted pool (possibly [undefined]) *)
Inductive selection : Type :=
  | SelectedNull
  | Selected (id : pid).

(** [frequencies[idP]]; a missing entry is [undefined], under which the
    loop [i < freq] runs zero times, like under 0. *)
Definition frequency_of (frequencies : list nat) (idP : pid) : nat :=
  match idP with
  | Pid n => default 0 (frequencies !! n)
  | Undefined => 0
  end.

Definition weightedPatterns (frequencies : list nat) (possiblePatterns : JsSet.t)
    : list pid :=
  possiblePatterns ≫= λ idP, replicate (frequency_of frequencies idP) idP.

(** [r] is the value [Math.random()] yields if the call is reached, which
    is the case exactly when the result is [Selected _].  The guard
    [if (entropyMin)] is false for [null] and also for the cell index 0. *)
Definition selectRandomPattern (w : gmap nat JsSet.t) (entropyMin : option nat)
    (frequencies : list nat) (r : unit_q) : selection :=
  match entropyMin with
  | None => SelectedNull
  | Some 0 => SelectedNull
  | Some cell =>
      match w !! cell with
      | None => SelectedNull
      | Some possiblePatterns =>
          if JsSet.size possiblePatterns =? 0 then SelectedNull
          else
            let pool := weightedPatterns frequencies possiblePatterns in
            let randomIndex := random_index r (length pool) in
            Selected (default Undefined (pool !! randomIndex))
      end
  end.

Definition isSubSetOf (subset superset : JsSet.t) : bool :=
  forallb (JsSet.has superset) subset.

Definition intersectSets (setA setB : JsSet.t) : JsSet.t :=
  foldl (λ intersection elem,
           if JsSet.has setB elem then JsSet.add intersection elem
           else intersection)
        [] setA.

(** [drawAdjacencies.get(idP)] *)
Definition adjacency_get (A : gmap nat (list JsSet.t)) (idP : pid)
    : option (list JsSet.t) :=
  match idP with
  | Pid n => A !! n
  | Undefined => None
  end.

(** the set [possiblePatterns] built for the neighbour in direction [d] *)
Definition possible_in (A : gmap nat (list JsSet.t))
    (currentCellPatterns : option JsSet.t) (d : direction) : JsSet.t :=
  match currentCellPatterns with
  | None => []
  | Some current =>
      foldl (λ possiblePatterns idP,
               match adjacency_get A idP with
               | None => possiblePatterns
               | Some adjacencyMaps =>
                   match adjacencyMaps !! directionMapping d with
                   | None => possiblePatterns
                   | Some inDirection => foldl JsSet.add possiblePatterns inDirection
                   end
               end)
            [] current
  end.

(** what one pass of the loop over the directions leaves behind: it runs
    on, or [draw] returns from inside it *)
Inductive visited : Type :=
  | Continue (e : engine) (stack : list nat)
  | Contradiction (e : engine).

(** how [propagate] ends *)
Inductive propagated : Type :=
  | Completed (e : engine)
  | Contradicted (e : engine).

(** how [draw] returns: [return null], the bare [return] of the
    contradiction branch, or the result object *)
Inductive outcome : Type :=
  | ReturnNull
  | ReturnUndefined
  | ReturnStep (selectedPattern : pattern) (entropyMin : nat)
               (cellDimX cellDimY : option Z).

Section Draw.

Variable rnd : nat → unit_q.
Variables outputDimWidth outputDimHeight : nat.

(** The cell next to [cell] in direction [d], if the bounds check on [y]
    lets it through.  With a zero width both coordinates are [NaN] or
    infinite and the check fails. *)
Definition neighbor (cell : nat) (d : direction) : option nat :=
  let '(dx, dy) := vector d in
  if outputDimWidth =? 0 then None
  else
    let W := Z.of_nat outputDimWidth in
    let x := Z.rem (Z.rem (Z.of_nat cell) W + dx + W) W in
    let y := (Z.of_nat cell / W + dy)%Z in
    if bool_decide (0 ≤ y)%Z && bool_decide (y < Z.of_nat outputDimHeight)%Z
    then Some (Z.to_nat (x + y * W))
    else None.

(** the body of [for (const [dx, dy] of directions)] for one direction;
    the stack has its top at the head *)
Definition visit (currentElementIndex : nat) (e : engine) (stack : list nat)
    (d : direction) : visited :=
  match neighbor currentElementIndex d with
  | None => Continue e stack
  | Some neighborElementIndex =>
      if JsMap.has (entropy e) neighborElementIndex then
        let possiblePatterns :=
          possible_in (adjacencies e) (wave e !! currentElementIndex) d in
        let availablePatterns :=
          JsSet.of_list (default [] (wave e !! neighborElementIndex)) in
        if isSubSetOf availablePatterns possiblePatterns then Continue e stack
        else
          let intersectedPatterns :=
            intersectSets possiblePatterns availablePatterns in
          if JsSet.size intersectedPatterns =? 0 then Contradiction e
          else
            let e := wave_set e neighborElementIndex intersectedPatterns in
            let updatedEntropyValue :=
              (inject_Z (Z.of_nat (JsSet.size intersectedPatterns))
               - uq (rnd (rng e)) * (1 # 10))%Q in
            let e :=
              with_entropy e
                (JsMap.set (entropy e) neighborElementIndex updatedEntropyValue) in
            Continue (with_rng e (S (rng e))) (neighborElementIndex :: stack)
      else Continue e stack
  end.

Fixpoint visit_all (currentElementIndex : nat) (e : engine) (stack : list nat)
    (ds : list direction) : visited :=
  match ds with
  | [] => Continue e stack
  | d :: ds' =>
      match visit currentElementIndex e stack d with
      | Contradiction e' => Contradiction e'
      | Continue e' stack' => visit_all currentElementIndex e' stack' ds'
      end
  end.

(** [while (stack.length > 0)], at most [fuel] iterations; [None]: the
    fuel ran out before the stack was empty *)
Fixpoint propagate (fuel : nat) (e : engine) (stack : list nat)
    : option propagated :=
  match fuel with
  | 0 => None
  | S fuel' =>
      match stack with
      | [] => Some (Completed e)
      | currentElementIndex :: stack' =>
          match visit_all currentElementIndex e stack' directions with
          | Contradiction e' => Some (Contradicted e')
          | Continue e' stack'' => propagate fuel' e' stack''
          end
      end
  end.

(** total size of the domains in the Wave *)
Definition wave_weight (w : gmap nat JsSet.t) : nat :=
  map_fold (λ _ s n, length s + n) 0 w.

(** iterations that suffice for the propagation loop (see
    [propagate_terminates]) *)
Definition propagation_fuel (e : engine) (stack : list nat) : nat :=
  S (length stack + wave_weight (wave e)).

(** the collapse of [draw]: the cell's domain becomes the singleton of the
    selected id and the cell leaves the entropy map; the random source has
    been read once, by [selectRandomPattern] *)
Definition collapse (e : engine) (entropyMin : nat) (selectedPatternId : pid)
    : engine :=
  let e := with_rng e (S (rng e)) in
  let e := wave_set e entropyMin [selectedPatternId] in
  with_entropy e (JsMap.delete (entropy e) entropyMin).

(** [draw]: the value returned and the state left behind *)
Definition draw (e : engine) : option (outcome * engine) :=
  if JsMap.size (entropy e) =? 0 then Some (ReturnNull, e)
  else
    match findMinEntropyKey (entropy e) with
    | None => Some (ReturnNull, e)
    | Some entropyMin =>
        match selectRandomPattern (wave e) (Some entropyMin) (frequencies e)
                                  (rnd (rng e)) with
        | SelectedNull => Some (ReturnNull, e)
        | Selected selectedPatternId =>
            let e := collapse e entropyMin selectedPatternId in
            let stack := [entropyMin] in
            match propagate (propagation_fuel e stack) e stack with
            | None => None
            | Some (Contradicted e') => Some (ReturnUndefined, e')
            | Some (Completed e') =>
                match selectedPatternId with
                | Undefined => Some (ReturnNull, e')
                | Pid n =>
                    match patterns e' !! n with
                    | None => Some (ReturnNull, e')
                    | Some selectedPattern =>
                        Some (ReturnStep selectedPattern entropyMin
                                (cellDimensionX e') (cellDimensionY e'), e')
                    end
                end
            end
        end
    end.

(** [n] successive calls of [draw]: the outcomes, first call first, and
    the final state *)
Fixpoint draws (n : nat) (e : engine) : option (list outcome * engine) :=
  match n with
  | 0 => Some ([], e)
  | S n' =>
      '(o, e') ← draw e;
      '(os, e'') ← draws n' e';
      Some (o :: os, e'')
  end.

End Draw.

(** ** Notions used by the statements *)

(** the state a finished propagation leaves behind *)
Definition final (r : propagated) : engine :=
  match r with Completed e => e | Contradicted e => e end.

(** [j] is in the set [adjacency[i][d]] *)
Definition adjacent (A : gmap nat (list JsSet.t)) (i : nat) (d : direction)
    (j : nat) : Prop :=
  ∃ sets s, A !! i = Some sets ∧ sets !! directionMapping d = Some s ∧ Pid j ∈ s.

(** the test [setup] runs before it puts [j] into [adjacency[i][d]] *)
Definition compatible (patternDim : nat) (ps : list pattern) (i : nat)
    (d : direction) (j : nat) : bool :=
  let pi := default [] (ps !! i) in
  let pj := default [] (ps !! j) in
  match d with
  | Left => isHorizontallyAdjacent pi pj patternDim
  | Right => isHorizontallyAdjacent pj pi patternDim
  | Up => isVerticallyAdjacent pi pj patternDim
  | Down => isVerticallyAdjacent pj pi patternDim
  end.

(** what the pass of the adjacency loops at [(i, j)] adds: [b] to
    [adjacency[a][d]] *)
Definition contributes (patternDim : nat) (ps : list pattern) (i j : nat)
    (a : nat) (d : direction) (b : nat) : Prop :=
  compatible patternDim ps a d b = true ∧
  ((a = i ∧ b = j ∧ (d = Left ∨ d = Up)) ∨
   (a = j ∧ b = i ∧ (d = Right ∨ d = Down))).

(** the first [n] ids have their four sets *)
Definition four_sets (n : nat) (A : gmap nat (list JsSet.t)) : Prop :=
  ∀ i, i < n → ∃ sets, A !! i = Some sets ∧ length sets = 4.

(** [x] may sit in direction [d] of some member of [current] *)
Definition may_follow (A : gmap nat (list JsSet.t)) (current : JsSet.t)
    (d : direction) (x : pid) : Prop :=
  ∃ idP sets s,
    idP ∈ current ∧ adjacency_get A idP = Some sets ∧
    sets !! directionMapping d = Some s ∧ x ∈ s.

(** a matrix of [n] rows of [n] entries *)
Definition square {A} (n : nat) (m : list (list A)) : Prop :=
  length m = n ∧ Forall (λ row, length row = n) m.

(** entry [(i, j)] of a matrix *)
Definition entry {A} (m : list (list A)) (i j : nat) : option A :=
  row ← m !! i; row !! j.

(** [m'] is [m] turned by a quarter: row [i] of [m'] is column [i] of [m]
    read from the bottom row up *)
Definition quarter_turn {A} (n : nat) (m m' : list (list A)) : Prop :=
  square n m' ∧ ∀ i j, i < n → j < n → entry m' i j = entry m (n - 1 - j) i.

(** a quarter turn of a window ([[]] stands for the exception) *)
Definition turn (m : pattern) : pattern := default [] (rotate90 m).

(** The specification's twelve variants of a window: for each of the four
    quarter turns the turned window, its rows reversed, and each of its
    rows reversed. *)
Definition symmetry_variants (c : pattern) : list pattern :=
  let c1 := turn c in
  let c2 := turn c1 in
  let c3 := turn c2 in
  [ c; reverse c; reverse <$> c;
    c1; reverse c1; reverse <$> c1;
    c2; reverse c2; reverse <$> c2;
    c3; reverse c3; reverse <$> c3 ].

(** a sample whose [w * h] pixels all have the colour [(r, g, b, a)] *)
Definition uniform_image (r g b a : Z) (w h : nat) : list Z :=
  concat (replicate (w * h) [r; g; b; a]).

(** an engine whose library is the single pattern [p], with every domain
    the singleton of its id *)
Definition single_pattern (p : pattern) (e : engine) : Prop :=
  (∀ cell s, wave e !! cell = Some s → s = [Pid 0]) ∧
  adjacencies e !! 0 = Some [[Pid 0]; [Pid 0]; [Pid 0]; [Pid 0]] ∧
  (∃ f, frequencies e = [S f]) ∧
  patterns e = [p].

(** the index of the cell at column [x] and row [y] of a grid [W] wide *)
Definition cell_at (W x y : nat) : nat := x + y * W.

(** the configurations the specification calls invalid *)
Definition invalid_configuration (patternDim imageWidth imageHeight
    outputDimWidth outputDimHeight : nat) : Prop :=
  imageWidth < patternDim ∨ imageHeight < patternDim ∨
  outputDimWidth = 0 ∨ outputDimHeight = 0.

(** every cell of the grid has a domain, and it is not empty *)
Definition domains_nonempty (outputDimWidth outputDimHeight : nat) (e : engine)
    : Prop :=
  ∀ cell, cell < outputDimWidth * outputDimHeight →
    ∃ s, wave e !! cell = Some s ∧ s ≠ [].

(** *** Concrete inputs *)

(** a sample of one opaque black pixel *)
Definition black_pixel : list Z := [0; 0; 0; 255]%Z.

(** a sample one pixel high: red, green, blue *)
Definition stripes : list Z :=
  [255; 0; 0; 255;  0; 255; 0; 255;  0; 0; 255; 255]%Z.

(** a random source that always yields 0 *)
Definition rnd_zero : nat → unit_q := λ _, uq_zero.

(** a random source that yields 1/2, then always 0 *)
Definition rnd_half_first : nat → unit_q :=
  λ n, match n with 0 => uq_half | S _ => uq_zero end.

Section Contradiction.

Variable rnd : nat → unit_q.
Variables outputDimWidth outputDimHeight : nat.

(** The neighbour of [cur] in direction [d] is uncollapsed, has candidates,
    and none of them may follow a candidate of [cur]: its intersection
    with the possible patterns is empty. *)
Definition empty_intersection (e : engine) (cur : nat) (d : direction) : Prop :=
  ∃ nb,
    neighbor outputDimWidth outputDimHeight cur d = Some nb ∧
    JsMap.has (entropy e) nb = true ∧
    (∃ x, x ∈ default [] (wave e !! nb)) ∧
    ∀ x, x ∈ default [] (wave e !! nb) →
         ¬ may_follow (adjacencies e) (default [] (wave e !! cur)) d x.

(** [reaches_empty e cur stack ds e']: propagation, about to visit the
    directions [ds] of the popped cell [cur] with [stack] pending, reaches
    an empty intersection in state [e']. *)
Inductive reaches_empty
    : engine → nat → list nat → list direction → engine → Prop :=
  | reaches_here e cur stack d ds :
      empty_intersection e cur d →
      reaches_empty e cur stack (d :: ds) e
  | reaches_after e cur stack d ds e1 stack1 e' :
      visit rnd outputDimWidth outputDimHeight cur e stack d = Continue e1 stack1 →
      reaches_empty e1 cur stack1 ds e' →
      reaches_empty e cur stack (d :: ds) e'
  | reaches_pop e cur cur' stack' e' :
      reaches_empty e cur' stack' directions e' →
      reaches_empty e cur (cur' :: stack') [] e'.

End Contradiction.


(** ** Notions used by the further properties *)

(** the keys of the entropy map, in insertion order *)
Definition entropy_keys (e : engine) : list nat := (entropy e).*1.

(** how often [x] occurs in [l] *)
Definition occurrences {A} `{EqDecision A} (x : A) (l : list A) : nat :=
  length (filter (λ y, y = x) l).

(** the cells the result objects among the outcomes report *)
Definition reported (os : list outcome) : list nat :=
  omap (λ o, match o with ReturnStep _ c _ _ => Some c | _ => None end) os.

(** the neighbour of [c] in direction [d], if it is uncollapsed, holds only
    candidates that may follow a candidate of [c] *)
Definition consistent_at (outputDimWidth outputDimHeight : nat) (e : engine)
    (c : nat) (d : direction) : Prop :=
  ∀ nb,
    neighbor outputDimWidth outputDimHeight c d = Some nb →
    JsMap.has (entropy e) nb = true →
    ∀ x, x ∈ default [] (wave e !! nb) →
         may_follow (adjacencies e) (default [] (wave e !! c)) d x.

(** every cell of the grid is consistent with its uncollapsed neighbours *)
Definition arc_consistent (outputDimWidth outputDimHeight : nat) (e : engine)
    : Prop :=
  ∀ c d, c < outputDimWidth * outputDimHeight →
         consistent_at outputDimWidth outputDimHeight e c d.

(** [q], placed in direction [d] of [p], agrees with [p] where the two
    overlap: to the left, [q] without its first column is [p] without its
    last one; above, [q] without its first row is [p] without its last one;
    to the right and below, the same with the roles exchanged *)
Definition overlaps (patternDim : nat) (d : direction) (p q : pattern) : Prop :=
  match d with
  | Left => take (patternDim - 1) <$> p = drop 1 <$> q
  | Right => take (patternDim - 1) <$> q = drop 1 <$> p
  | Up => take (patternDim - 1) p = drop 1 q
  | Down => take (patternDim - 1) q = drop 1 p
  end.

(** the rules of [e] forbid nothing: any two pattern ids may be neighbours
    in any direction, every pattern has a positive frequency, and every
    domain is either the full set of ids or a single id *)
Definition unconstrained (e : engine) : Prop :=
  let P := length (patterns e) in
  (∀ i d j, i < P → j < P → adjacent (adjacencies e) i d j) ∧
  (∀ n, n < P → 1 ≤ frequency_of (frequencies e) (Pid n)) ∧
  (∀ cell s, wave e !! cell = Some s →
             s = all_ids P ∨ ∃ n, n < P ∧ s = [Pid n]).
(** ** Sets and maps *)

Lemma has_true s x : JsSet.has s x = true ↔ x ∈ s.
Proof. unfold JsSet.has. apply bool_decide_eq_true. Qed.

Lemma elem_of_add s x y : y ∈ JsSet.add s x ↔ y ∈ s ∨ y = x.
Proof.
  unfold JsSet.add. destruct (JsSet.has s x) eqn:E.
  - apply has_true in E. split; [auto | intros [?| ->]; auto].
  - rewrite elem_of_app, list_elem_of_singleton. tauto.
Qed.

Lemma NoDup_add s x : NoDup s → NoDup (JsSet.add s x).
Proof.
  intros Hs. unfold JsSet.add. destruct (JsSet.has s x) eqn:E; [done|].
  apply NoDup_app. split_and!; [done | | apply NoDup_singleton].
  intros y Hy ->%list_elem_of_singleton.
  apply has_true in Hy. congruence.
Qed.

Lemma foldl_add_spec (l acc : list pid) y :
  y ∈ foldl JsSet.add acc l ↔ y ∈ acc ∨ y ∈ l.
Proof.
  revert acc. induction l as [|x l IH]; intros acc; simpl.
  - rewrite elem_of_nil. tauto.
  - rewrite IH, elem_of_add, elem_of_cons. tauto.
Qed.

Lemma NoDup_foldl_add (l acc : list pid) :
  NoDup acc → NoDup (foldl JsSet.add acc l).
Proof.
  revert acc. induction l as [|x l IH]; intros acc Hacc; simpl; [done|].
  by apply IH, NoDup_add.
Qed.

Lemma elem_of_of_list l y : y ∈ JsSet.of_list l ↔ y ∈ l.
Proof.
  unfold JsSet.of_list. rewrite foldl_add_spec, elem_of_nil. tauto.
Qed.

Lemma NoDup_of_list l : NoDup (JsSet.of_list l).
Proof. apply NoDup_foldl_add, NoDup_nil_2. Qed.

Lemma isSubSetOf_true a b : isSubSetOf a b = true ↔ ∀ x, x ∈ a → x ∈ b.
Proof.
  unfold isSubSetOf. rewrite forallb_forall. split.
  - intros H x Hx. apply has_true, H, list_elem_of_In, Hx.
  - intros H x Hx. apply has_true, H, list_elem_of_In, Hx.
Qed.

Lemma intersect_acc (a b acc : list pid) y :
  y ∈ foldl (λ intersection elem,
               if JsSet.has b elem then JsSet.add intersection elem
               else intersection) acc a
  ↔ y ∈ acc ∨ (y ∈ a ∧ y ∈ b).
Proof.
  revert acc. induction a as [|x a IH]; intros acc; simpl.
  - rewrite elem_of_nil. tauto.
  - rewrite IH, elem_of_cons. destruct (JsSet.has b x) eqn:E.
    + apply has_true in E. rewrite elem_of_add. split.
      * intros [[?| ->]|[? ?]]; auto.
      * intros [?|[[->|?] ?]]; auto.
    + split; [tauto|]. intros [?|[[->|?] Hb]]; auto.
      apply has_true in Hb. congruence.
Qed.

Lemma elem_of_intersectSets a b y :
  y ∈ intersectSets a b ↔ y ∈ a ∧ y ∈ b.
Proof. unfold intersectSets. rewrite intersect_acc, elem_of_nil. tauto. Qed.

Lemma NoDup_intersect_acc (a b acc : list pid) :
  NoDup acc →
  NoDup (foldl (λ intersection elem,
                  if JsSet.has b elem then JsSet.add intersection elem
                  else intersection) acc a).
Proof.
  revert acc. induction a as [|x a IH]; intros acc Hacc; simpl; [done|].
  apply IH. destruct (JsSet.has b x); [by apply NoDup_add | done].
Qed.

Lemma NoDup_intersectSets a b : NoDup (intersectSets a b).
Proof. apply NoDup_intersect_acc, NoDup_nil_2. Qed.

(** a duplicate-free list inside [b] that misses a member of [b] is
    shorter than [b] *)
Lemma strict_subset_length (a b : list pid) x :
  NoDup a → (∀ y, y ∈ a → y ∈ b) → x ∈ b → x ∉ a → length a < length b.
Proof.
  intros Ha Hab Hxb Hxa.
  assert (length (x :: a) ≤ length b) as Hle; [|simpl in Hle; lia].
  apply submseteq_length, NoDup_submseteq.
  - by apply NoDup_cons.
  - intros y [->|?]%elem_of_cons; auto.
Qed.

Lemma of_list_length l : length (JsSet.of_list l) ≤ length l.
Proof.
  apply submseteq_length, NoDup_submseteq; [apply NoDup_of_list|].
  intros y. by rewrite elem_of_of_list.
Qed.

(** ** The propagation loop *)

Lemma weight_insert_Some (w : gmap nat JsSet.t) k old new :
  w !! k = Some old →
  wave_weight (<[k := new]> w) + length old = wave_weight w + length new.
Proof.
  intros Hk. unfold wave_weight.
  rewrite (map_fold_delete_L _ _ k old w); [|intros; lia|done].
  rewrite <-(insert_delete_eq w k new).
  rewrite map_fold_insert_L; [lia|intros; lia|apply lookup_delete_eq].
Qed.

Lemma isSubSetOf_false a b :
  isSubSetOf a b = false → ∃ x, x ∈ a ∧ x ∉ b.
Proof.
  unfold isSubSetOf. induction a as [|y a IH]; simpl; [done|].
  destruct (JsSet.has b y) eqn:E; simpl.
  - intros (x & ? & ?)%IH. exists x. split; [by right | done].
  - intros _. exists y. split; [by left|].
    intros Hy%has_true. congruence.
Qed.

Section Propagation.

Variable rnd : nat → unit_q.
Variables outputDimWidth outputDimHeight : nat.

#[local] Abbreviation visit' := (visit rnd outputDimWidth outputDimHeight).
#[local] Abbreviation visit_all' := (visit_all rnd outputDimWidth outputDimHeight).
#[local] Abbreviation propagate' := (propagate rnd outputDimWidth outputDimHeight).
#[local] Abbreviation neighbor' := (neighbor outputDimWidth outputDimHeight).

(** What a visit can do: nothing, stop on a contradiction (the state
    untouched), or narrow the neighbour's domain to a strictly smaller,
    non-empty set and push it. *)
Lemma visit_cases cur e stack d :
  visit' cur e stack d = Continue e stack ∨
  visit' cur e stack d = Contradiction e ∨
  ∃ nb old new e',
    visit' cur e stack d = Continue e' (nb :: stack) ∧
    neighbor' cur d = Some nb ∧
    JsMap.has (entropy e) nb = true ∧
    wave e !! nb = Some old ∧
    wave e' = <[nb := new]> (wave e) ∧
    new ≠ [] ∧ length new < length old ∧
    (∀ x, x ∈ new → x ∈ old) ∧
    adjacencies e' = adjacencies e ∧ patterns e' = patterns e ∧
    frequencies e' = frequencies e ∧
    cellDimensionX e' = cellDimensionX e ∧
    cellDimensionY e' = cellDimensionY e.
Proof.
  unfold visit.
  destruct (neighbor' cur d) as [nb|] eqn:Hnb; [|by left].
  destruct (JsMap.has (entropy e) nb) eqn:Hhas; [|by left].
  set (possible := possible_in _ _ _).
  set (available := JsSet.of_list _).
  destruct (isSubSetOf available possible) eqn:Hsub; [by left|].
  destruct (JsSet.size (intersectSets possible available) =? 0) eqn:Hsz;
    [by right; left|].
  right; right.
  apply isSubSetOf_false in Hsub as (x & Hxa & Hxp).
  subst available. rewrite elem_of_of_list in Hxa.
  destruct (wave e !! nb) as [old|] eqn:Hold; simpl in *;
    [|by apply elem_of_nil in Hxa].
  eexists nb, old, _, _. split; [reflexivity|].
  split_and!; try done.
  - apply Nat.eqb_neq in Hsz. unfold JsSet.size in Hsz.
    intros Heq. by rewrite Heq in Hsz.
  - apply (strict_subset_length _ _ x); [apply NoDup_intersectSets| |done|].
    + intros y [_ Hy]%elem_of_intersectSets. by rewrite elem_of_of_list in Hy.
    + intros [? _]%elem_of_intersectSets. done.
  - intros y [_ Hy]%elem_of_intersectSets. by rewrite elem_of_of_list in Hy.
Qed.

(** a visit never increases stack length plus Wave weight *)
Lemma visit_measure cur e stack d e' stack' :
  visit' cur e stack d = Continue e' stack' →
  length stack' + wave_weight (wave e') ≤ length stack + wave_weight (wave e).
Proof.
  intros Hv.
  destruct (visit_cases cur e stack d)
    as [H1|[H1|(nb & old & new & e1 & H1 & _ & _ & Hold & Hw & _ & Hlt & _)]];
    rewrite H1 in Hv; simplify_eq; [done|].
  rewrite Hw. pose proof (weight_insert_Some _ _ _ new Hold). simpl. lia.
Qed.

Lemma visit_all_measure cur ds e stack e' stack' :
  visit_all' cur e stack ds = Continue e' stack' →
  length stack' + wave_weight (wave e') ≤ length stack + wave_weight (wave e).
Proof.
  revert e stack. induction ds as [|d ds IH]; intros e stack; simpl.
  - intros [= -> ->]. done.
  - destruct (visit' cur e stack d) as [e1 stack1|] eqn:Hv; [|done].
    intros Hall%IH. apply visit_measure in Hv. lia.
Qed.

Lemma propagate_S fuel e stack :
  propagate' (S fuel) e stack =
  match stack with
  | [] => Some (Completed e)
  | cur :: stack' =>
      match visit_all' cur e stack' directions with
      | Contradiction e' => Some (Contradicted e')
      | Continue e' stack'' => propagate' fuel e' stack''
      end
  end.
Proof. reflexivity. Qed.

(** enough fuel: the loop ends *)
Lemma propagate_enough fuel : ∀ e stack,
  length stack + wave_weight (wave e) < fuel →
  is_Some (propagate' fuel e stack).
Proof.
  induction fuel as [|fuel IH]; intros e stack Hlt; [lia|].
  rewrite propagate_S.
  destruct stack as [|cur stack]; [by eexists|].
  destruct (visit_all' cur e stack directions) as [e' stack'|] eqn:Hv;
    [|by eexists].
  apply IH. apply visit_all_measure in Hv. simpl in Hlt. lia.
Qed.

(** more fuel does not change a result *)
Lemma propagate_mono fuel : ∀ fuel' e stack r,
  propagate' fuel e stack = Some r → fuel ≤ fuel' →
  propagate' fuel' e stack = Some r.
Proof.
  induction fuel as [|fuel IH]; intros fuel' e stack r; [done|].
  destruct fuel' as [|fuel']; [lia|]. rewrite !propagate_S.
  destruct stack as [|cur stack]; [done|].
  destruct (visit_all' cur e stack directions) as [e' stack'|]; [|done].
  intros Hp Hle. apply (IH fuel'); [done|lia].
Qed.

Lemma propagate_terminates e stack :
  is_Some (propagate' (propagation_fuel e stack) e stack).
Proof. apply propagate_enough. unfold propagation_fuel. lia. Qed.

End Propagation.

(** ** Contradictions *)

Lemma possible_in_acc (A : gmap nat (list JsSet.t)) d (current acc : list pid) x :
  x ∈ foldl (λ possiblePatterns idP,
               match adjacency_get A idP with
               | None => possiblePatterns
               | Some adjacencyMaps =>
                   match adjacencyMaps !! directionMapping d with
                   | None => possiblePatterns
                   | Some inDirection => foldl JsSet.add possiblePatterns inDirection
                   end
               end) acc current
  ↔ x ∈ acc ∨ may_follow A current d x.
Proof.
  revert acc. induction current as [|idP current IH]; intros acc; simpl.
  - split; [auto|]. intros [?|(? & ? & ? & []%elem_of_nil & _)]. done.
  - rewrite IH. unfold may_follow. split.
    + intros [Hx|(i & sets & s & Hi & ?)].
      * destruct (adjacency_get A idP) as [sets|] eqn:Hg; [|by left].
        destruct (sets !! directionMapping d) as [s|] eqn:Hs; [|by left].
        apply foldl_add_spec in Hx as [?|?]; [by left|].
        right. exists idP, sets, s. split_and!; [by left|done..].
      * right. exists i, sets, s. split; [by right|done].
    + intros [Hx|(i & sets & s & [->|Hi]%elem_of_cons & Hg & Hs & Hxs)].
      * left. destruct (adjacency_get A idP) as [sets|]; [|done].
        destruct (sets !! directionMapping d) as [s|]; [|done].
        apply foldl_add_spec. by left.
      * left. rewrite Hg. cbn. rewrite Hs. apply foldl_add_spec. by right.
      * right. by exists i, sets, s.
Qed.

Lemma possible_in_spec A o d x :
  x ∈ possible_in A o d ↔ may_follow A (default [] o) d x.
Proof.
  destruct o as [current|]; simpl.
  - unfold possible_in. rewrite possible_in_acc, elem_of_nil. tauto.
  - split; [by intros ?%elem_of_nil|].
    by intros (? & ? & ? & ?%elem_of_nil & _).
Qed.

Section ContradictionFacts.

Variable rnd : nat → unit_q.
Variables outputDimWidth outputDimHeight : nat.

#[local] Abbreviation visit' := (visit rnd outputDimWidth outputDimHeight).
#[local] Abbreviation visit_all' := (visit_all rnd outputDimWidth outputDimHeight).
#[local] Abbreviation propagate' := (propagate rnd outputDimWidth outputDimHeight).
#[local] Abbreviation neighbor' := (neighbor outputDimWidth outputDimHeight).
#[local] Abbreviation reaches :=
  (reaches_empty rnd outputDimWidth outputDimHeight).

(** the contradiction branch is taken exactly on an empty intersection,
    and it leaves the state as it found it *)
Lemma visit_contradiction cur e stack d e' :
  visit' cur e stack d = Contradiction e' ↔
  e' = e ∧ empty_intersection outputDimWidth outputDimHeight e cur d.
Proof.
  unfold visit, empty_intersection.
  destruct (neighbor' cur d) as [nb|] eqn:Hnb;
    [|split; [done|by intros (_ & ? & ? & _)]].
  destruct (JsMap.has (entropy e) nb) eqn:Hhas;
    [|split; [done|intros (_ & ? & [= <-] & ? & _); congruence]].
  set (possible := possible_in _ _ _).
  set (available := JsSet.of_list _).
  destruct (isSubSetOf available possible) eqn:Hsub.
  - split; [done|]. intros (_ & nb' & [= <-] & _ & [x Hx] & Hno).
    rewrite isSubSetOf_true in Hsub.
    destruct (Hno x Hx). apply possible_in_spec, Hsub.
    by apply elem_of_of_list.
  - apply isSubSetOf_false in Hsub as (x & Hxa & Hxp).
    subst available. rewrite elem_of_of_list in Hxa.
    destruct (JsSet.size (intersectSets possible _) =? 0) eqn:Hsz.
    + apply Nat.eqb_eq, nil_length_inv in Hsz.
      split; [|by intros [-> _]]. intros [= <-]. split; [done|].
      exists nb. split_and!; [done|done|by exists x|].
      intros y Hy Hf. apply (elem_of_nil y). rewrite <-Hsz.
      apply elem_of_intersectSets. split; [by apply possible_in_spec|].
      by apply elem_of_of_list.
    + split; [done|]. intros (_ & nb' & [= <-] & _ & _ & Hno).
      apply Nat.eqb_neq in Hsz. destruct Hsz.
      unfold JsSet.size. apply length_zero_iff_nil, elem_of_nil_inv.
      intros y [Hp Ha]%elem_of_intersectSets.
      rewrite elem_of_of_list in Ha.
      apply (Hno y Ha). by apply possible_in_spec.
Qed.

Lemma reaches_sound e cur stack ds e' :
  reaches e cur stack ds e' →
  ∃ fuel,
    match visit_all' cur e stack ds with
    | Contradiction e1 => Some (Contradicted e1)
    | Continue e1 stack1 => propagate' fuel e1 stack1
    end = Some (Contradicted e').
Proof.
  induction 1 as [e cur stack d ds Hempty
                 |e cur stack d ds e1 stack1 e' Hv _ [fuel IH]
                 |e cur cur' stack' e' _ [fuel IH]].
  - exists 0. cbn [visit_all].
    assert (visit' cur e stack d = Contradiction e) as ->; [|done].
    by apply visit_contradiction.
  - exists fuel. cbn [visit_all]. by rewrite Hv.
  - exists (S fuel). cbn [visit_all]. by rewrite propagate_S.
Qed.

Lemma reaches_complete fuel : ∀ ds cur e stack e',
  match visit_all' cur e stack ds with
  | Contradiction e1 => Some (Contradicted e1)
  | Continue e1 stack1 => propagate' fuel e1 stack1
  end = Some (Contradicted e') →
  reaches e cur stack ds e'.
Proof.
  induction fuel as [|fuel IHfuel]; intros ds;
    induction ds as [|d ds IHds]; intros cur e stack e'; cbn [visit_all].
  - done.
  - destruct (visit' cur e stack d) as [e1 stack1|e1] eqn:Hv.
    + intros ?%IHds. by eapply reaches_after.
    + intros [= <-]. apply visit_contradiction in Hv as [-> ?].
      by apply reaches_here.
  - rewrite propagate_S. destruct stack as [|cur' stack']; [done|].
    intros ?%IHfuel. by apply reaches_pop.
  - destruct (visit' cur e stack d) as [e1 stack1|e1] eqn:Hv.
    + intros ?%IHds. by eapply reaches_after.
    + intros [= <-]. apply visit_contradiction in Hv as [-> ?].
      by apply reaches_here.
Qed.

(** with the fuel [draw] gives it, propagation ends on a contradiction
    exactly when it reaches an empty intersection *)
Lemma propagate_contradicted e cur e' :
  propagate' (propagation_fuel e [cur]) e [cur] = Some (Contradicted e') ↔
  reaches e cur [] directions e'.
Proof.
  split.
  - unfold propagation_fuel. rewrite propagate_S. apply reaches_complete.
  - intros [fuel Hfuel]%reaches_sound.
    destruct (propagate_terminates rnd outputDimWidth outputDimHeight e [cur])
      as [r Hr].
    rewrite Hr. f_equal.
    assert (propagate' (S fuel) e [cur] = Some (Contradicted e')) as H1
      by (by rewrite propagate_S).
    apply (propagate_mono _ _ _ _ (S fuel + propagation_fuel e [cur])) in H1;
      [|lia].
    apply (propagate_mono _ _ _ _ (S fuel + propagation_fuel e [cur])) in Hr;
      [|lia].
    congruence.
Qed.

(** *** Invariants of a step *)

Lemma visit_all_invariant (Inv : engine → Prop) :
  (∀ cur e stack d e' stack',
     Inv e → visit' cur e stack d = Continue e' stack' → Inv e') →
  ∀ ds cur e stack,
    Inv e →
    match visit_all' cur e stack ds with
    | Continue e' _ => Inv e'
    | Contradiction e' => Inv e'
    end.
Proof.
  intros Hstep ds.
  induction ds as [|d ds IH]; intros cur e stack He; cbn [visit_all]; [done|].
  destruct (visit' cur e stack d) as [e1 stack1|e1] eqn:Hv.
  - apply IH. by eapply Hstep.
  - by apply visit_contradiction in Hv as [-> _].
Qed.

Lemma propagate_invariant (Inv : engine → Prop) :
  (∀ cur e stack d e' stack',
     Inv e → visit' cur e stack d = Continue e' stack' → Inv e') →
  ∀ fuel e stack r,
    Inv e → propagate' fuel e stack = Some r → Inv (final r).
Proof.
  intros Hstep fuel.
  induction fuel as [|fuel IH]; intros e stack r He; [done|].
  rewrite propagate_S. destruct stack as [|cur stack].
  - by intros [= <-].
  - pose proof (visit_all_invariant Inv Hstep directions cur e stack He) as Hall.
    destruct (visit_all' cur e stack directions) as [e1 stack1|e1].
    + by apply IH.
    + by intros [= <-].
Qed.

Lemma draw_invariant (Inv : engine → Prop) :
  (∀ cur e stack d e' stack',
     Inv e → visit' cur e stack d = Continue e' stack' → Inv e') →
  (∀ e entropyMin id,
     Inv e →
     selectRandomPattern (wave e) (Some entropyMin) (frequencies e)
                         (rnd (rng e)) = Selected id →
     Inv (collapse e entropyMin id)) →
  ∀ e o e',
    Inv e → draw rnd outputDimWidth outputDimHeight e = Some (o, e') → Inv e'.
Proof.
  intros Hstep Hcollapse e o e' He. unfold draw.
  destruct (JsMap.size (entropy e) =? 0); [by intros [= _ <-]|].
  destruct (findMinEntropyKey (entropy e)) as [c|]; [|by intros [= _ <-]].
  destruct (selectRandomPattern _ _ _ _) as [|id] eqn:Hsel;
    [by intros [= _ <-]|].
  destruct (propagate' _ _ _) as [r|] eqn:Hp; [|done].
  apply (propagate_invariant Inv Hstep) in Hp; [|by apply Hcollapse].
  destruct r as [e1|e1]; simpl in Hp; [|by intros [= _ <-]].
  destruct id as [|n]; [by intros [= _ <-]|].
  destruct (patterns e1 !! n); by intros [= _ <-].
Qed.

(** every call of [draw] returns *)
Lemma draw_total e : is_Some (draw rnd outputDimWidth outputDimHeight e).
Proof.
  unfold draw.
  destruct (JsMap.size (entropy e) =? 0); [by eexists|].
  destruct (findMinEntropyKey (entropy e)) as [c|]; [|by eexists].
  destruct (selectRandomPattern _ _ _ _) as [|id]; [by eexists|].
  destruct (propagate_terminates rnd outputDimWidth outputDimHeight
              (collapse e c id) [c]) as [r ->].
  destruct r as [e1|e1]; [|by eexists].
  destruct id as [|n]; [by eexists|].
  destruct (patterns e1 !! n); by eexists.
Qed.

Lemma draws_total n : ∀ e, is_Some (draws rnd outputDimWidth outputDimHeight n e).
Proof.
  induction n as [|n IH]; intros e; cbn [draws]; [by eexists|].
  destruct (draw_total e) as [[o e1] ->]. cbn.
  destruct (IH e1) as [[os e2] ->]. by eexists.
Qed.

Lemma draws_invariant (Inv : engine → Prop) (Good : outcome → Prop) :
  (∀ e o e',
     Inv e → draw rnd outputDimWidth outputDimHeight e = Some (o, e') →
     Inv e' ∧ Good o) →
  ∀ n e os e',
    Inv e → draws rnd outputDimWidth outputDimHeight n e = Some (os, e') →
    Inv e' ∧ Forall Good os.
Proof.
  intros Hdraw n. induction n as [|n IH]; intros e os e' He; cbn [draws].
  - by intros [= <- <-].
  - destruct (draw _ _ _ e) as [[o e1]|] eqn:Hd; [|done]. cbn.
    destruct (draws _ _ _ n e1) as [[os1 e2]|] eqn:Hds; [|done]. cbn.
    intros [= <- <-]. destruct (Hdraw _ _ _ He Hd) as [He1 Ho].
    destruct (IH _ _ _ He1 Hds) as [He2 Hos]. split; [done|].
    by apply Forall_cons.
Qed.

End ContradictionFacts.

(** ** Extraction of the patterns *)

Lemma cmat_square N img w h x y : square N (cmat N img w h x y).
Proof.
  unfold cmat, kernel, square. rewrite !length_fmap, length_seq.
  split; [done|]. rewrite !Forall_fmap. apply Forall_forall. intros n _.
  simpl. by rewrite !length_fmap, length_seq.
Qed.

Lemma rotate90_square n (m : pattern) :
  1 ≤ n → square n m → ∃ m', rotate90 m = Some m' ∧ quarter_turn n m m'.
Proof.
  intros Hn [Hlen Hrows]. destruct m as [|row0 rest]; [simpl in Hlen; lia|].
  eexists. split; [reflexivity|].
  pose proof (Forall_inv Hrows) as Hrow0. simpl in Hrow0. rewrite Hrow0.
  set (m := row0 :: rest) in *. split.
  - split; [by rewrite length_fmap, length_seq|].
    rewrite Forall_fmap. apply Forall_forall. intros x _. simpl.
    by rewrite length_fmap, length_reverse.
  - intros i j Hi Hj. unfold entry.
    rewrite list_lookup_fmap, lookup_seq_lt by done. simpl.
    rewrite list_lookup_fmap, reverse_lookup by lia.
    replace (length m - S j) with (n - 1 - j) by lia.
    destruct (lookup_lt_is_Some_2 m (n - 1 - j)) as [row Hrow]; [lia|].
    rewrite Hrow. simpl.
    rewrite Forall_forall in Hrows.
    assert (length row = n) as Hlr.
    { apply Hrows. by eapply list_elem_of_lookup_2. }
    destruct (lookup_lt_is_Some_2 row i) as [p Hp]; [lia|].
    rewrite Hp. f_equal. by apply nth_lookup_Some.
Qed.

Lemma turn_square n (m : pattern) :
  1 ≤ n → square n m →
  rotate90 m = Some (turn m) ∧ quarter_turn n m (turn m).
Proof.
  intros Hn Hm. destruct (rotate90_square n m Hn Hm) as (m' & Hr & Hq).
  unfold turn. by rewrite Hr.
Qed.

(** the four iterations of the loop push the twelve variants, in order *)
Lemma push_variants_spec n (c : pattern) allPatterns :
  1 ≤ n → square n c →
  push_variants 4 c allPatterns = Some (allPatterns ++ symmetry_variants c).
Proof.
  intros Hn Hc.
  destruct (turn_square n c Hn Hc) as [H1 [Hs1 _]].
  destruct (turn_square n _ Hn Hs1) as [H2 [Hs2 _]].
  destruct (turn_square n _ Hn Hs2) as [H3 [Hs3 _]].
  destruct (turn_square n _ Hn Hs3) as [H4 _].
  cbn [push_variants]. rewrite H1. cbn [mbind option_bind].
  rewrite H2. cbn [mbind option_bind]. rewrite H3. cbn [mbind option_bind].
  rewrite H4. cbn [mbind option_bind].
  unfold symmetry_variants. by rewrite <-!app_assoc.
Qed.

Section ExtractFacts.

Variable patternDim : nat.
Variable imageData : list Z.
Variables imageWidth imageHeight : nat.
Hypothesis patternDim_pos : 1 ≤ patternDim.

#[local] Abbreviation window := (cmat patternDim imageData imageWidth imageHeight).

Lemma extract_row y xs allPatterns :
  foldl (λ acc x, allPatterns ← acc; push_variants 4 (window x y) allPatterns)
        (Some allPatterns) xs
  = Some (allPatterns ++ (xs ≫= λ x, symmetry_variants (window x y))).
Proof.
  revert allPatterns.
  induction xs as [|x xs IH]; intros allPatterns; cbn [foldl].
  - by rewrite app_nil_r.
  - cbn [mbind option_bind].
    rewrite (push_variants_spec patternDim), IH; [|done|apply cmat_square].
    by rewrite bind_cons, <-app_assoc.
Qed.

Lemma extract_rows ys allPatterns :
  foldl (λ acc y,
           foldl (λ acc x,
                    allPatterns ← acc; push_variants 4 (window x y) allPatterns)
                 acc (seq 0 imageWidth))
        (Some allPatterns) ys
  = Some (allPatterns ++
          (ys ≫= λ y, seq 0 imageWidth ≫= λ x, symmetry_variants (window x y))).
Proof.
  revert allPatterns.
  induction ys as [|y ys IH]; intros allPatterns; cbn [foldl].
  - by rewrite app_nil_r.
  - rewrite extract_row, IH. by rewrite bind_cons, <-app_assoc.
Qed.

Lemma extract_spec :
  extract patternDim imageData imageWidth imageHeight
  = Some (seq 0 imageHeight ≫= λ y,
          seq 0 imageWidth ≫= λ x, symmetry_variants (window x y)).
Proof. unfold extract. by rewrite extract_rows. Qed.

End ExtractFacts.

Lemma length_bind_const {A B} (f : A → list B) (l : list A) k :
  (∀ a, length (f a) = k) → length (l ≫= f) = length l * k.
Proof.
  intros Hf. induction l as [|a l IH]; [done|].
  rewrite bind_cons, length_app, Hf, IH. simpl. lia.
Qed.

(** ** The adjacency table *)

Lemma foldl_insert_lookup {V} (v : V) (ks : list nat) (m : gmap nat V) i :
  foldl (λ m k, <[k := v]> m) m ks !! i =
  if decide (i ∈ ks) then Some v else m !! i.
Proof.
  revert m. induction ks as [|k ks IH]; intros m; cbn [foldl].
  - case_decide as Hi; [by apply elem_of_nil in Hi|done].
  - rewrite IH. destruct (decide (i ∈ ks)) as [Hi|Hi].
    + case_decide as Hi'; [done|]. destruct Hi'. by right.
    + destruct (decide (i = k)) as [->|Hne].
      * rewrite lookup_insert_eq. case_decide as Hi'; [done|].
        destruct Hi'. by left.
      * rewrite lookup_insert_ne by done.
        case_decide as Hi'; [|done].
        by apply elem_of_cons in Hi' as [?|?].
Qed.

Lemma adjacent_add A i dir j a d b :
  adjacent (add_adjacent A i dir j) a d b ↔
  adjacent A a d b ∨
  (a = i ∧ directionMapping d = dir ∧ b = j ∧
   ∃ sets, A !! i = Some sets ∧ dir < length sets).
Proof.
  unfold adjacent, add_adjacent.
  destruct (decide (i = a)) as [->|Hne].
  2: { setoid_rewrite lookup_alter_ne; [|done..]. split; [auto|].
       intros [?|(-> & _)]; [done|congruence]. }
  setoid_rewrite lookup_alter_eq.
  destruct (A !! a) as [sets|] eqn:Ha; simpl.
  2: { split; [by intros (? & ? & ? & _)|].
       intros [(? & ? & ? & _)|(_ & _ & _ & ? & ? & _)]; done. }
  destruct (decide (dir = directionMapping d)) as [->|Hd].
  - split.
    + intros (sets' & s' & [= <-] & Hs & Hb).
      rewrite list_lookup_alter_eq in Hs.
      destruct (sets !! directionMapping d) as [s|] eqn:Hsd; [|done].
      simpl in Hs. injection Hs as <-.
      apply elem_of_add in Hb as [Hb|[= ->]].
      * left. by exists sets, s.
      * right. split_and!; try done. exists sets. split; [done|].
        by eapply lookup_lt_Some.
    + intros [(sets' & s & [= <-] & Hs & Hb)|(_ & _ & -> & _ & [= <-] & Hlt)].
      * eexists _, _. split; [done|].
        rewrite list_lookup_alter_eq, Hs. split; [done|].
        apply elem_of_add. by left.
      * apply lookup_lt_is_Some_2 in Hlt as [s Hs].
        eexists _, _. split; [done|].
        rewrite list_lookup_alter_eq, Hs. split; [done|].
        apply elem_of_add. by right.
  - split.
    + intros (sets' & s' & [= <-] & Hs & Hb).
      rewrite list_lookup_alter_ne in Hs by done.
      left. by exists sets, s'.
    + intros [(sets' & s & [= <-] & Hs & Hb)|(_ & ? & _)]; [|congruence].
      eexists _, _. split; [done|].
      by rewrite list_lookup_alter_ne by done.
Qed.

Lemma four_sets_add n A i dir j :
  four_sets n A → four_sets n (add_adjacent A i dir j).
Proof.
  intros HA k Hk. destruct (HA k Hk) as (sets & Hs & Hlen).
  unfold add_adjacent. destruct (decide (i = k)) as [->|Hne].
  - rewrite lookup_alter_eq, Hs. simpl. eexists. split; [done|].
    by rewrite length_alter.
  - rewrite lookup_alter_ne by done. by exists sets.
Qed.

Lemma directionMapping_inj d d' :
  directionMapping d = directionMapping d' → d = d'.
Proof. by destruct d, d'. Qed.

Lemma four_sets_has n A k d :
  four_sets n A → k < n →
  ∃ sets, A !! k = Some sets ∧ directionMapping d < length sets.
Proof.
  intros HA Hk. destruct (HA k Hk) as (sets & ? & Hlen).
  exists sets. split; [done|]. rewrite Hlen. destruct d; simpl; lia.
Qed.

Section Adjacency.

Variable patternDim : nat.
Variable ps : list pattern.

#[local] Abbreviation step := (adjacency_step patternDim ps).
#[local] Abbreviation adds := (contributes patternDim ps).

Lemma four_sets_step n A i j : four_sets n A → four_sets n (step A i j).
Proof.
  intros HA. unfold adjacency_step.
  destruct (isHorizontallyAdjacent _ _ _), (isVerticallyAdjacent _ _ _);
    auto using four_sets_add.
Qed.

Lemma contributes_alt i j a d b :
  adds i j a d b ↔
  (isHorizontallyAdjacent (default [] (ps !! i)) (default [] (ps !! j))
     patternDim = true ∧
   ((a = i ∧ d = Left ∧ b = j) ∨ (a = j ∧ d = Right ∧ b = i))) ∨
  (isVerticallyAdjacent (default [] (ps !! i)) (default [] (ps !! j))
     patternDim = true ∧
   ((a = i ∧ d = Up ∧ b = j) ∨ (a = j ∧ d = Down ∧ b = i))).
Proof.
  unfold contributes, compatible. split.
  - intros [Hc [(-> & -> & [->| ->])|(-> & -> & [->| ->])]]; tauto.
  - intros [[Hc [(-> & -> & ->)|(-> & -> & ->)]]
           |[Hc [(-> & -> & ->)|(-> & -> & ->)]]]; tauto.
Qed.

(** one guarded pair of [add] calls *)
Lemma adjacent_pair n d1 d2 A i j k1 k2 a d b :
  directionMapping d1 = k1 → directionMapping d2 = k2 →
  four_sets n A → i < n → j < n →
  adjacent (add_adjacent (add_adjacent A i k1 j) j k2 i) a d b ↔
  adjacent A a d b ∨ (a = i ∧ d = d1 ∧ b = j) ∨ (a = j ∧ d = d2 ∧ b = i).
Proof.
  intros <- <- HA Hi Hj. rewrite !adjacent_add. split.
  - intros [[?|(-> & Hd%directionMapping_inj & -> & _)]
           |(-> & Hd%directionMapping_inj & -> & _)]; auto.
  - intros [?|[(-> & -> & ->)|(-> & -> & ->)]].
    + by do 2 left.
    + left; right. split_and!; try done. by apply (four_sets_has n).
    + right. split_and!; try done.
      apply (four_sets_has n); auto using four_sets_add.
Qed.

Lemma adjacent_step n A i j a d b :
  four_sets n A → i < n → j < n →
  adjacent (step A i j) a d b ↔ adjacent A a d b ∨ adds i j a d b.
Proof.
  intros HA Hi Hj. rewrite contributes_alt. unfold adjacency_step.
  destruct (isHorizontallyAdjacent _ _ _), (isVerticallyAdjacent _ _ _).
  - rewrite (adjacent_pair n Up Down), (adjacent_pair n Left Right);
      auto using four_sets_add.
    intuition discriminate.
  - rewrite (adjacent_pair n Left Right) by done. intuition discriminate.
  - rewrite (adjacent_pair n Up Down) by done. intuition discriminate.
  - intuition discriminate.
Qed.

Lemma adjacent_row n i js : ∀ A a d b,
  four_sets n A → i < n → Forall (λ j, j < n) js →
  adjacent (foldl (λ A j, step A i j) A js) a d b ↔
  adjacent A a d b ∨ ∃ j, j ∈ js ∧ adds i j a d b.
Proof.
  induction js as [|j js IH]; intros A a d b HA Hi Hjs; simpl.
  - split; [auto|]. by intros [?|(? & ?%elem_of_nil & _)].
  - apply Forall_cons in Hjs as [Hj Hjs].
    rewrite IH by auto using four_sets_step.
    rewrite (adjacent_step n) by done. split.
    + intros [[?|?]|(j' & ? & ?)]; [by left|right..].
      * exists j. split; [by left|done].
      * exists j'. split; [by right|done].
    + intros [?|(j' & [->|?]%elem_of_cons & ?)]; [by do 2 left|by left; right|].
      right. by exists j'.
Qed.

Lemma four_sets_row n i js : ∀ A,
  four_sets n A → four_sets n (foldl (λ A j, step A i j) A js).
Proof.
  induction js as [|j js IH]; intros A HA; simpl; [done|].
  by apply IH, four_sets_step.
Qed.

Lemma adjacent_rows n rows js : ∀ A a d b,
  four_sets n A → Forall (λ i, i < n) rows → Forall (λ j, j < n) js →
  adjacent (foldl (λ A i, foldl (λ A j, step A i j) A js) A rows) a d b ↔
  adjacent A a d b ∨ ∃ i j, i ∈ rows ∧ j ∈ js ∧ adds i j a d b.
Proof.
  induction rows as [|i rows IH]; intros A a d b HA Hrows Hjs; simpl.
  - split; [auto|]. by intros [?|(? & ? & ?%elem_of_nil & _)].
  - apply Forall_cons in Hrows as [Hi Hrows].
    rewrite IH by auto using four_sets_row.
    rewrite (adjacent_row n) by done. split.
    + intros [[?|(j & ? & ?)]|(i' & j & ? & ? & ?)]; [by left|right..].
      * exists i, j. split; [by left|done].
      * exists i', j. split; [by right|done].
    + intros [?|(i' & j & [->|?]%elem_of_cons & ? & ?)]; [by do 2 left| |].
      * left; right. by exists j.
      * right. by exists i', j.
Qed.

Lemma empty_adjacencies_lookup n i :
  empty_adjacencies n !! i = if decide (i < n) then Some [[]; []; []; []] else None.
Proof.
  unfold empty_adjacencies. rewrite foldl_insert_lookup.
  destruct (decide (i < n)).
  - rewrite decide_True; [done|]. apply elem_of_seq. lia.
  - rewrite decide_False; [done|]. rewrite elem_of_seq. lia.
Qed.

(** the table holds [j] in [adjacency[i][d]] exactly when both are ids of
    the library and the test for that direction passed *)
Lemma build_adjacencies_spec i d j :
  adjacent (build_adjacencies patternDim ps) i d j ↔
  i < length ps ∧ j < length ps ∧ compatible patternDim ps i d j = true.
Proof.
  unfold build_adjacencies. set (n := length ps).
  assert (Forall (λ i, i < n) (seq 0 n)) as Hseq.
  { apply Forall_forall. intros k Hk%elem_of_seq. lia. }
  rewrite (adjacent_rows n); [|
    intros k Hk; rewrite empty_adjacencies_lookup, decide_True by done;
    by eexists|done..].
  split.
  - intros [(sets & s & Hs & Hd & Hin)|(i' & j' & Hi & Hj & Hc & Hij)].
    + rewrite empty_adjacencies_lookup in Hs. case_decide; [|done].
      injection Hs as <-. destruct d; simpl in Hd; injection Hd as <-;
        by apply elem_of_nil in Hin.
    + apply elem_of_seq in Hi, Hj.
      destruct Hij as [(-> & -> & _)|(-> & -> & _)]; split_and!; done || lia.
  - intros (Hi & Hj & Hc). right.
    destruct d; [exists i, j|exists j, i|exists i, j|exists j, i];
      rewrite !elem_of_seq; (split_and!; [lia..|]); split; auto.
Qed.

End Adjacency.

Lemma compatible_opposite N ps i d j :
  compatible N ps i d j = compatible N ps j (opposite d) i.
Proof. by destruct d. Qed.

(** ** The random source *)

Lemma random_index_lt r n : 0 < n → random_index r n < n.
Proof.
  intros Hn. unfold random_index. destruct (uq_range r) as [H0 H1].
  set (q := (uq r * inject_Z (Z.of_nat n))%Q).
  assert (0 <= q)%Q as Hq0.
  { apply Qmult_le_0_compat; [done|].
    change 0%Q with (inject_Z 0). rewrite <-Zle_Qle. lia. }
  assert (q < inject_Z (Z.of_nat n))%Q as Hq1.
  { unfold q. rewrite <-(Qmult_1_l (inject_Z (Z.of_nat n))) at 2.
    apply Qmult_lt_compat_r; [|done].
    change 0%Q with (inject_Z 0). rewrite <-Zlt_Qlt. lia. }
  assert (0 ≤ Qfloor q)%Z as Hf0.
  { change 0%Z with (Qfloor 0). by apply Qfloor_resp_le. }
  assert (Qfloor q < Z.of_nat n)%Z as Hf1.
  { rewrite Zlt_Qlt. eapply Qle_lt_trans; [apply Qfloor_le|done]. }
  lia.
Qed.

(** ** A uniform sample with 1×1 patterns *)

Lemma uniform_lookup (c : list Z) n k j :
  k < n → j < length c → concat (replicate n c) !! (k * length c + j) = c !! j.
Proof.
  revert k. induction n as [|n IH]; intros k Hk Hj; [lia|].
  rewrite replicate_S, concat_cons. destruct k as [|k].
  - by rewrite lookup_app_l.
  - rewrite lookup_app_r by (simpl; lia).
    replace (S k * length c + j - length c) with (k * length c + j)
      by (simpl; lia).
    apply IH; lia.
Qed.

Lemma uniform_read_pixel r g b a w h k :
  k < w * h →
  read_pixel (uniform_image r g b a w h) (k * 4) =
  [Some r; Some g; Some b; Some a].
Proof.
  intros Hk. unfold read_pixel, uniform_image.
  pose proof (uniform_lookup [r; g; b; a] (w * h) k) as Hl. simpl in Hl.
  rewrite <-(Nat.add_0_r (k * 4)) at 1.
  by rewrite !Hl by lia.
Qed.

Lemma uniform_cmat r g b a w h x y :
  x < w → y < h →
  cmat 1 (uniform_image r g b a w h) w h x y =
  [[[Some r; Some g; Some b; Some a]]].
Proof.
  intros Hx Hy. unfold cmat, kernel. simpl.
  rewrite Nat.add_0_r, (Nat.mul_comm w y), Nat.div_mul by lia.
  rewrite !Nat.mod_small by lia.
  rewrite uniform_read_pixel; [done|]. nia.
Qed.

Lemma single_variants (px : pixel) :
  symmetry_variants [[px]] = replicate 12 [[px]].
Proof. reflexivity. Qed.

Lemma bind_replicate {A B} (f : A → list B) (l : list A) k p :
  Forall (λ a, f a = replicate k p) l → l ≫= f = replicate (length l * k) p.
Proof.
  induction 1 as [|a l Ha _ IH]; [done|].
  rewrite bind_cons, Ha, IH. simpl. by rewrite replicate_add.
Qed.

Lemma uniform_extract r g b a w h :
  extract 1 (uniform_image r g b a w h) w h =
  Some (replicate (h * (w * 12)) [[[Some r; Some g; Some b; Some a]]]).
Proof.
  rewrite extract_spec by done. f_equal.
  rewrite <-(length_seq h 0) at 2. apply bind_replicate.
  apply Forall_forall. intros y Hy%elem_of_seq.
  rewrite <-(length_seq w 0) at 2. apply bind_replicate.
  apply Forall_forall. intros x Hx%elem_of_seq.
  rewrite uniform_cmat by lia. apply single_variants.
Qed.

Lemma count_repeated (p : pattern) n : ∀ c,
  foldl count_pattern (Library [(p, c)] [p] [(p, 0)]) (replicate n p) =
  Library [(p, c + n)] [p] [(p, 0)].
Proof.
  induction n as [|n IH]; intros c; simpl.
  - by rewrite Nat.add_0_r.
  - unfold count_pattern at 2. simpl. rewrite decide_True by done. simpl.
    rewrite decide_True by done. rewrite IH. do 3 f_equal. lia.
Qed.

Lemma deduplicate_repeated (p : pattern) n :
  deduplicate (replicate (S n) p) = Library [(p, S n)] [p] [(p, 0)].
Proof. unfold deduplicate. simpl. apply (count_repeated p n 1). Qed.

Lemma waveInit_lookup W H n cell :
  waveInit W H n !! cell =
  if decide (cell < W * H) then Some (all_ids n) else None.
Proof.
  unfold waveInit. rewrite foldl_insert_lookup.
  destruct (decide (cell < W * H)).
  - rewrite decide_True; [done|]. apply elem_of_seq. lia.
  - rewrite decide_False; [done|]. rewrite elem_of_seq. lia.
Qed.

(** *** Steps of an engine with a single pattern *)

Section SinglePattern.

Variable rnd : nat → unit_q.
Variables outputDimWidth outputDimHeight : nat.
Variable p : pattern.

Lemma single_select e cell id :
  single_pattern p e →
  selectRandomPattern (wave e) (Some cell) (frequencies e) (rnd (rng e))
    = Selected id →
  id = Pid 0 ∧ wave e !! cell = Some [Pid 0].
Proof.
  intros (Hw & _ & [f Hf] & _). unfold selectRandomPattern.
  destruct cell as [|cell]; [done|].
  destruct (wave e !! S cell) as [s|] eqn:Hs; [|done].
  apply Hw in Hs as ->. rewrite Hf. unfold weightedPatterns.
  rewrite bind_singleton.
  change (frequency_of [S f] (Pid 0)) with (S f).
  change (JsSet.size [Pid 0] =? 0) with false. cbv iota.
  set (pool := replicate (S f) (Pid 0)).
  destruct (lookup_lt_is_Some_2 pool (random_index (rnd (rng e)) (length pool)))
    as [x Hx].
  { apply random_index_lt. unfold pool. rewrite length_replicate. lia. }
  rewrite Hx. apply lookup_replicate in Hx as [-> _].
  by intros [= <-].
Qed.

Lemma single_collapse e cell :
  single_pattern p e → wave e !! cell = Some [Pid 0] →
  single_pattern p (collapse e cell (Pid 0)) ∧
  wave (collapse e cell (Pid 0)) = wave e.
Proof.
  intros (Hw & HA & Hf & Hp) Hcell.
  assert (wave (collapse e cell (Pid 0)) = wave e) as Heq.
  { simpl. by apply insert_id. }
  split; [|done]. split_and!; try done. by rewrite Heq.
Qed.

Lemma single_visit e cur stack d :
  single_pattern p e → wave e !! cur = Some [Pid 0] →
  visit rnd outputDimWidth outputDimHeight cur e stack d = Continue e stack.
Proof.
  intros (Hw & HA & _) Hcur. unfold visit.
  destruct (neighbor _ _ cur d) as [nb|]; [|done].
  destruct (JsMap.has (entropy e) nb); [|done].
  rewrite Hcur. unfold possible_in. simpl. rewrite HA.
  assert (JsSet.of_list (default [] (wave e !! nb)) = [] ∨
          JsSet.of_list (default [] (wave e !! nb)) = [Pid 0]) as [-> | ->].
  { destruct (wave e !! nb) as [s|] eqn:Hs; [|by left].
    apply Hw in Hs as ->. by right. }
  - done.
  - by destruct d.
Qed.

Lemma single_visit_all e cur ds : ∀ stack,
  single_pattern p e → wave e !! cur = Some [Pid 0] →
  visit_all rnd outputDimWidth outputDimHeight cur e stack ds = Continue e stack.
Proof.
  induction ds as [|d ds IH]; intros stack He Hcur; cbn [visit_all]; [done|].
  rewrite single_visit by done. by apply IH.
Qed.

(** a step of such an engine returns [null] or collapses a cell to the
    pattern; it never narrows a domain and never meets a contradiction *)
Lemma single_draw e o e' :
  single_pattern p e →
  draw rnd outputDimWidth outputDimHeight e = Some (o, e') →
  (single_pattern p e' ∧ wave e' = wave e) ∧
  (o ≠ ReturnUndefined ∧ ∀ q c x y, o = ReturnStep q c x y → q = p).
Proof.
  intros He. unfold draw.
  destruct (JsMap.size (entropy e) =? 0); [by intros [= <- <-]|].
  destruct (findMinEntropyKey (entropy e)) as [c|]; [|by intros [= <- <-]].
  destruct (selectRandomPattern _ _ _ _) as [|id] eqn:Hsel;
    [by intros [= <- <-]|].
  apply single_select in Hsel as [-> Hc]; [|done].
  destruct (single_collapse e c He Hc) as [He1 Hw1].
  set (e1 := collapse e c (Pid 0)) in *.
  unfold propagation_fuel. cbn [length]. rewrite propagate_S.
  rewrite single_visit_all; [|done|by rewrite Hw1].
  rewrite propagate_S.
  destruct He1 as (? & ? & ? & Hp). rewrite Hp. simpl.
  intros [= <- <-]. split; [done|]. split; [done|]. by intros ? ? ? ? [= <-].
Qed.

Lemma single_draws n e :
  single_pattern p e →
  ∃ os e',
    draws rnd outputDimWidth outputDimHeight n e = Some (os, e') ∧
    (single_pattern p e' ∧ wave e' = wave e) ∧
    Forall (λ o, o ≠ ReturnUndefined ∧
                 ∀ q c x y, o = ReturnStep q c x y → q = p) os.
Proof.
  intros He.
  destruct (draws_total rnd outputDimWidth outputDimHeight n e)
    as [[os e'] Hd].
  exists os, e'. split; [done|].
  apply (draws_invariant rnd outputDimWidth outputDimHeight
           (λ e1, single_pattern p e1 ∧ wave e1 = wave e)
           (λ o, o ≠ ReturnUndefined ∧
                 ∀ q c x y, o = ReturnStep q c x y → q = p)) in Hd;
    [done| |done].
  intros e1 o e2 [He1 Hw1] Hdraw.
  destruct (single_draw e1 o e2 He1 Hdraw) as [[? Hw2] ?].
  split; [|done]. split; [done|congruence].
Qed.

End SinglePattern.

(** ** Neighbours on the grid *)

Lemma cell_coordinates W x y :
  x < W →
  Z.rem (Z.of_nat (cell_at W x y)) (Z.of_nat W) = Z.of_nat x ∧
  (Z.of_nat (cell_at W x y) / Z.of_nat W)%Z = Z.of_nat y.
Proof.
  intros Hx. unfold cell_at.
  rewrite Z.rem_mod_nonneg by lia.
  rewrite Nat2Z.inj_add, Nat2Z.inj_mul. split.
  - rewrite Z.mod_add by lia. apply Z.mod_small. lia.
  - rewrite Z.div_add by lia. rewrite Z.div_small by lia. lia.
Qed.

Lemma neighbor_cell W H x y d :
  x < W → y < H →
  neighbor W H (cell_at W x y) d =
  match d with
  | Left => Some (cell_at W ((x + W - 1) mod W) y)
  | Right => Some (cell_at W ((x + 1) mod W) y)
  | Up => if y =? 0 then None else Some (cell_at W x (y - 1))
  | Down => if S y =? H then None else Some (cell_at W x (S y))
  end.
Proof.
  intros Hx Hy. unfold neighbor.
  destruct (cell_coordinates W x y Hx) as [-> ->].
  destruct (W =? 0) eqn:HW; [apply Nat.eqb_eq in HW; lia|clear HW].
  destruct d; cbn [vector].
  - rewrite bool_decide_true, bool_decide_true by lia. cbn [andb]. f_equal.
    rewrite Z.rem_mod_nonneg by lia.
    replace (Z.of_nat x + -1 + Z.of_nat W)%Z with (Z.of_nat (x + W - 1)) by lia.
    rewrite <-Nat2Z.inj_mod. unfold cell_at. lia.
  - rewrite bool_decide_true, bool_decide_true by lia. cbn [andb]. f_equal.
    rewrite Z.rem_mod_nonneg by lia.
    replace (Z.of_nat x + 1 + Z.of_nat W)%Z
      with (Z.of_nat (x + 1) + 1 * Z.of_nat W)%Z by lia.
    rewrite Z.mod_add by lia.
    rewrite <-Nat2Z.inj_mod. unfold cell_at. lia.
  - destruct (y =? 0) eqn:Hy0.
    + apply Nat.eqb_eq in Hy0 as ->.
      by rewrite bool_decide_false by lia.
    + apply Nat.eqb_neq in Hy0.
      rewrite bool_decide_true, bool_decide_true by lia. cbn [andb]. f_equal.
      rewrite Z.rem_mod_nonneg by lia.
      replace (Z.of_nat x + 0 + Z.of_nat W)%Z
        with (Z.of_nat x + 1 * Z.of_nat W)%Z by lia.
      rewrite Z.mod_add, Z.mod_small by lia. unfold cell_at. nia.
  - destruct (S y =? H) eqn:HyH.
    + apply Nat.eqb_eq in HyH.
      rewrite bool_decide_true by lia.
      by rewrite (bool_decide_false (_ < _)%Z) by lia.
    + apply Nat.eqb_neq in HyH.
      rewrite bool_decide_true, bool_decide_true by lia. cbn [andb]. f_equal.
      rewrite Z.rem_mod_nonneg by lia.
      replace (Z.of_nat x + 0 + Z.of_nat W)%Z
        with (Z.of_nat x + 1 * Z.of_nat W)%Z by lia.
      rewrite Z.mod_add, Z.mod_small by lia. unfold cell_at. nia.
Qed.

(** a direction without neighbour is passed over, the state untouched *)
Lemma visit_skipped rnd W H cur e stack d :
  neighbor W H cur d = None → visit rnd W H cur e stack d = Continue e stack.
Proof. intros Hn. unfold visit. by rewrite Hn. Qed.

(** ** What [setup] builds *)

Lemma setup_succeeds W H N rnd pos img w h cw ch :
  1 ≤ N →
  setup W H N rnd pos img w h cw ch =
  Some (let allPatterns :=
          seq 0 h ≫= λ y, seq 0 w ≫= λ x, symmetry_variants (cmat N img w h x y) in
        let lib := deduplicate allPatterns in
        {| wave := waveInit W H (length (uniquePatterns lib));
           adjacencies := build_adjacencies N (uniquePatterns lib);
           entropy := initEntropy W H (length (uniquePatterns lib)) (rnd pos);
           patterns := uniquePatterns lib;
           frequencies := freqs_of lib;
           cellDimensionX := cell_dimension cw W;
           cellDimensionY := cell_dimension ch H;
           rng := S pos |}).
Proof. intros HN. unfold setup. by rewrite extract_spec. Qed.

Lemma setup_adjacencies W H N rnd pos img w h cw ch e :
  setup W H N rnd pos img w h cw ch = Some e →
  adjacencies e = build_adjacencies N (patterns e) ∧
  wave e = waveInit W H (length (patterns e)).
Proof.
  unfold setup. destruct (extract N img w h) as [allPatterns|]; [|done].
  by intros [= <-].
Qed.

(** ** The claims of the specification *)

Lemma findMinEntropyKey_nonempty h c :
  findMinEntropyKey h = Some c → (JsMap.size h =? 0) = false.
Proof. by destruct h. Qed.

(** C1.  [draw] returns the bare [undefined] exactly when the propagation
    that follows the collapse reaches an empty intersection for a
    neighbour; that value is neither the [null] of "nothing left to
    collapse" nor the result object of a committed step, so the
    contradiction is reported as an outcome of its own and never as a
    success. *)
Theorem draw_reports_contradiction rnd W H e e' :
  (draw rnd W H e = Some (ReturnUndefined, e') ↔
   ∃ entropyMin id,
     findMinEntropyKey (entropy e) = Some entropyMin ∧
     selectRandomPattern (wave e) (Some entropyMin) (frequencies e)
                         (rnd (rng e)) = Selected id ∧
     reaches_empty rnd W H (collapse e entropyMin id) entropyMin []
                   directions e') ∧
  ReturnUndefined ≠ ReturnNull ∧
  (∀ p c x y, ReturnUndefined ≠ ReturnStep p c x y).
Proof.
  split; [|done]. unfold draw. split.
  - destruct (JsMap.size (entropy e) =? 0); [done|].
    destruct (findMinEntropyKey (entropy e)) as [c|] eqn:Hmin; [|done].
    destruct (selectRandomPattern _ _ _ _) as [|id] eqn:Hsel; [done|].
    destruct (propagate _ _ _ _ _ _) as [[e1|e1]|] eqn:Hp; [| |done].
    + destruct id as [|n]; [done|]. by destruct (patterns e1 !! n).
    + intros [= <-]. exists c, id. split_and!; [done..|].
      by apply propagate_contradicted.
  - intros (c & id & Hmin & Hsel & Hreach).
    rewrite (findMinEntropyKey_nonempty _ _ Hmin), Hmin, Hsel.
    apply propagate_contradicted in Hreach. by rewrite Hreach.
Qed.

(** Whenever the minimum-entropy cell is the cell 0, [draw] returns [null]
    and changes nothing. *)
Lemma draw_minimum_at_zero rnd W H e :
  findMinEntropyKey (entropy e) = Some 0 →
  draw rnd W H e = Some (ReturnNull, e).
Proof.
  intros Hmin. unfold draw.
  by rewrite (findMinEntropyKey_nonempty _ _ Hmin), Hmin.
Qed.

(** C2 (the code departs from it).  After [setup] on a 1×1 grid the only
    cell, index 0, is uncollapsed and has the minimum entropy, yet [draw]
    returns [null] and leaves it uncollapsed: the guard [if (entropyMin)]
    of [selectRandomPattern] takes the index 0 for "no cell". *)
Theorem draw_skips_cell_zero :
  ∃ e0,
    setup 1 1 1 rnd_zero 0 black_pixel 1 1 1 1 = Some e0 ∧
    JsMap.has (entropy e0) 0 = true ∧
    findMinEntropyKey (entropy e0) = Some 0 ∧
    wave e0 !! 0 = Some [Pid 0] ∧
    draw rnd_zero 1 1 e0 = Some (ReturnNull, e0).
Proof. eexists. split; [reflexivity|]. by vm_compute. Qed.

(** The same guard stalls a run: on a 2×1 grid the first step collapses
    cell 1, after which cell 0 is the only uncollapsed cell and every
    further step returns [null] without collapsing it. *)
Lemma draw_stalls_before_cell_zero :
  ∃ e0 e1,
    setup 2 1 1 rnd_half_first 0 black_pixel 1 1 2 1 = Some e0 ∧
    draw rnd_half_first 2 1 e0 =
      Some (ReturnStep [[[Some 0; Some 0; Some 0; Some 255]]]%Z 1
                       (Some 1%Z) (Some 1%Z), e1) ∧
    JsMap.has (entropy e1) 0 = true ∧
    JsMap.size (entropy e1) = 1 ∧
    draw rnd_half_first 2 1 e1 = Some (ReturnNull, e1).
Proof.
  eexists _, _. split; [by vm_compute|]. split; [by vm_compute|].
  split_and!; by vm_compute.
Qed.

(** C3.  On a 2×1 grid with 3×3 patterns of the striped sample, the first
    step collapses cell 1, narrows cell 0 through its Left neighbour
    link, then finds the intersection empty through the Right one (the
    same cell, by the wrap): it returns [undefined] with the domain and
    the entropy of cell 0 changed. *)
Theorem contradiction_keeps_mutations :
  ∃ e0 e1,
    setup 2 1 3 rnd_half_first 0 stripes 3 1 2 1 = Some e0 ∧
    draw rnd_half_first 2 1 e0 = Some (ReturnUndefined, e1) ∧
    findMinEntropyKey (entropy e0) = Some 1 ∧
    wave e0 !! 0 = Some (all_ids 12) ∧
    wave e1 !! 0 = Some [Pid 8] ∧
    JsMap.get (entropy e0) 0 = Some (12 # 1) ∧
    JsMap.get (entropy e1) 0 = Some (10 # 10) ∧
    wave e1 !! 0 ≠ wave e0 !! 0 ∧
    ¬ (12 # 1 == 10 # 10)%Q.
Proof.
  eexists _, _. split; [by vm_compute|]. split; [by vm_compute|].
  split_and!; try by vm_compute.
Qed.

(** C4.  In the adjacency table [setup] builds, [j] is in
    [adjacency[i][Left]] exactly when [i] is in [adjacency[j][Right]], and
    [j] is in [adjacency[i][Up]] exactly when [i] is in
    [adjacency[j][Down]], for all ids [i] and [j]. *)
Theorem adjacency_symmetry W H N rnd pos img w h cw ch e :
  setup W H N rnd pos img w h cw ch = Some e →
  ∀ i j,
    (adjacent (adjacencies e) i Left j ↔ adjacent (adjacencies e) j Right i) ∧
    (adjacent (adjacencies e) i Up j ↔ adjacent (adjacencies e) j Down i).
Proof.
  intros [-> _]%setup_adjacencies i j.
  rewrite !build_adjacencies_spec.
  rewrite (compatible_opposite N (patterns e) i Left j).
  rewrite (compatible_opposite N (patterns e) i Up j).
  simpl. tauto.
Qed.

Lemma adjacency_symmetry_witness :
  ∃ e,
    setup 2 1 3 rnd_zero 0 stripes 3 1 2 1 = Some e ∧
    ∀ i j,
      (adjacent (adjacencies e) i Left j ↔ adjacent (adjacencies e) j Right i) ∧
      (adjacent (adjacencies e) i Up j ↔ adjacent (adjacencies e) j Down i).
Proof.
  eexists. split.
  - apply setup_succeeds. lia.
  - apply (adjacency_symmetry 2 1 3 rnd_zero 0 stripes 3 1 2 1).
    apply setup_succeeds. lia.
Defined.

(** What [setup] builds from a uniform sample with 1×1 patterns. *)
Lemma uniform_setup W H rnd pos r g b a w h cw ch :
  1 ≤ w → 1 ≤ h →
  ∃ e0,
    setup W H 1 rnd pos (uniform_image r g b a w h) w h cw ch = Some e0 ∧
    patterns e0 = [[[[Some r; Some g; Some b; Some a]]]] ∧
    frequencies e0 = [12 * (w * h)] ∧
    adjacencies e0 !! 0 = Some [[Pid 0]; [Pid 0]; [Pid 0]; [Pid 0]] ∧
    ∀ cell, wave e0 !! cell =
            if decide (cell < W * H) then Some [Pid 0] else None.
Proof.
  intros Hw Hh. unfold setup. rewrite uniform_extract. cbn [mbind option_bind].
  destruct (h * (w * 12)) as [|n] eqn:Hn; [nia|].
  rewrite deduplicate_repeated. eexists. split; [reflexivity|]. simpl.
  split_and!; [done| |done|].
  - unfold freqs_of. simpl. rewrite decide_True by done. simpl.
    f_equal. lia.
  - intros cell. by rewrite waveInit_lookup.
Qed.

(** C5 as worded fails: the frequency of the single pattern of a 1×1
    sample is 12, not the pixel count 1. *)
Lemma uniform_frequency_counterexample :
  ∃ e0,
    setup 1 1 1 rnd_zero 0 (uniform_image 0 0 0 255 1 1) 1 1 1 1 = Some e0 ∧
    length (patterns e0) = 1 ∧
    frequencies e0 = [12] ∧
    frequencies e0 ≠ [1 * 1].
Proof. eexists. split; [reflexivity|]. by vm_compute. Qed.

(** C5, amended.  For a uniform sample of any size at least 1×1 with
    [N = 1], [setup] yields exactly one pattern, whose frequency is twelve
    times the pixel count (each window contributes its twelve variants), and
    a table in which the pattern is adjacent to itself in all four
    directions; on any grid no step ever returns the contradiction value,
    every step that returns a result returns that pattern, and the domain of
    every cell is the singleton of that pattern after any number of steps. *)
Theorem uniform_sample_single_pattern W H rnd pos r g b a w h cw ch :
  1 ≤ w → 1 ≤ h →
  ∃ e0,
    setup W H 1 rnd pos (uniform_image r g b a w h) w h cw ch = Some e0 ∧
    patterns e0 = [[[[Some r; Some g; Some b; Some a]]]] ∧
    frequencies e0 = [12 * (w * h)] ∧
    (∀ d, adjacent (adjacencies e0) 0 d 0) ∧
    ∀ n, ∃ os e,
      draws rnd W H n e0 = Some (os, e) ∧
      Forall (λ o, o ≠ ReturnUndefined ∧
                   ∀ q c x y, o = ReturnStep q c x y →
                              q = [[[Some r; Some g; Some b; Some a]]]) os ∧
      ∀ cell, cell < W * H → wave e !! cell = Some [Pid 0].
Proof.
  intros Hw Hh.
  destruct (uniform_setup W H rnd pos r g b a w h cw ch Hw Hh)
    as (e0 & Hsetup & Hp & Hf & HA & Hwave).
  exists e0. split_and!; [done..| |].
  - intros d. eexists _, _. split; [done|].
    destruct d; (split; [reflexivity|by left]).
  - intros n.
    assert (single_pattern [[[Some r; Some g; Some b; Some a]]] e0) as He0.
    { split_and!; [|done| |done].
      - intros cell s. rewrite Hwave. case_decide; [|done]. by intros [= <-].
      - rewrite Hf. destruct (12 * (w * h)) as [|f] eqn:Hn; [nia|]. by exists f. }
    destruct (single_draws rnd W H _ n e0 He0) as (os & e & Hd & [_ Hw'] & Hos).
    exists os, e. split_and!; [done..|].
    intros cell Hcell. rewrite Hw', Hwave. by rewrite decide_True.
Qed.

Lemma uniform_sample_single_pattern_witness :
  ∃ e0,
    setup 2 2 1 rnd_zero 0 (uniform_image 0 0 0 255 1 1) 1 1 2 2 = Some e0 ∧
    patterns e0 = [[[[Some 0; Some 0; Some 0; Some 255]]]]%Z ∧
    frequencies e0 = [12 * (1 * 1)] ∧
    (∀ d, adjacent (adjacencies e0) 0 d 0) ∧
    ∀ n, ∃ os e,
      draws rnd_zero 2 2 n e0 = Some (os, e) ∧
      Forall (λ o, o ≠ ReturnUndefined ∧
                   ∀ q c x y, o = ReturnStep q c x y →
                              q = [[[Some 0; Some 0; Some 0; Some 255]]]%Z) os ∧
      ∀ cell, cell < 2 * 2 → wave e !! cell = Some [Pid 0].
Proof.
  apply (uniform_sample_single_pattern 2 2 rnd_zero 0 0 0 0 255 1 1 2 2); lia.
Defined.

(** C6.  For every sampled window the extraction pushes exactly the twelve
    variants, in this order: for each of the four quarter turns of the
    window (none, one, two, three) the turned window, its rows in reverse
    order, and each of its rows reversed; [allPatterns] is the
    concatenation of these twelve over all positions, before any
    deduplication. *)
Theorem twelve_variants_per_window N img w h :
  1 ≤ N →
  (∀ x y allPatterns,
     push_variants 4 (cmat N img w h x y) allPatterns =
     Some (allPatterns ++ symmetry_variants (cmat N img w h x y))) ∧
  (∀ x y, length (symmetry_variants (cmat N img w h x y)) = 12) ∧
  (∀ x y,
     let c := cmat N img w h x y in
     quarter_turn N c (turn c) ∧
     quarter_turn N (turn c) (turn (turn c)) ∧
     quarter_turn N (turn (turn c)) (turn (turn (turn c)))) ∧
  extract N img w h =
  Some (seq 0 h ≫= λ y, seq 0 w ≫= λ x, symmetry_variants (cmat N img w h x y)) ∧
  ∃ allPatterns,
    extract N img w h = Some allPatterns ∧ length allPatterns = h * (w * 12).
Proof.
  intros HN. split_and!.
  - intros x y allPatterns.
    apply (push_variants_spec N); [done|apply cmat_square].
  - done.
  - intros x y c.
    destruct (turn_square N c HN (cmat_square N img w h x y)) as [_ H1].
    destruct (turn_square N _ HN (proj1 H1)) as [_ H2].
    destruct (turn_square N _ HN (proj1 H2)) as [_ H3].
    done.
  - by apply extract_spec.
  - eexists. split; [by apply extract_spec|].
    rewrite (length_bind_const _ _ (w * 12)), length_seq; [done|].
    intros y. by rewrite (length_bind_const _ _ 12), length_seq.
Qed.

Lemma twelve_variants_per_window_witness :
  (∀ x y allPatterns,
     push_variants 4 (cmat 3 stripes 3 1 x y) allPatterns =
     Some (allPatterns ++ symmetry_variants (cmat 3 stripes 3 1 x y))) ∧
  (∀ x y, length (symmetry_variants (cmat 3 stripes 3 1 x y)) = 12) ∧
  (∀ x y,
     let c := cmat 3 stripes 3 1 x y in
     quarter_turn 3 c (turn c) ∧
     quarter_turn 3 (turn c) (turn (turn c)) ∧
     quarter_turn 3 (turn (turn c)) (turn (turn (turn c)))) ∧
  extract 3 stripes 3 1 =
  Some (seq 0 1 ≫= λ y, seq 0 3 ≫= λ x, symmetry_variants (cmat 3 stripes 3 1 x y)) ∧
  ∃ allPatterns,
    extract 3 stripes 3 1 = Some allPatterns ∧ length allPatterns = 1 * (3 * 12).
Proof. apply (twelve_variants_per_window 3 stripes 3 1). lia. Defined.

(** C7.  For every cell [c] of the grid, at column [x = c mod W] and row
    [y = c div W]: the Left neighbour is the cell of the same row at column
    [(x - 1) mod W], which is column [W - 1] for [x = 0], and the Right one
    the cell at column [(x + 1) mod W]; the Up neighbour is the cell above,
    except that there is none for [y = 0], and the Down neighbour the cell
    below, except that there is none for [y = H - 1]; and the visit of a
    direction without neighbour returns the Wave, the entropies and the
    stack as they were. *)
Theorem neighbours_wrap_in_x_only rnd W H c :
  c < W * H →
  let x := c mod W in
  let y := c / W in
  c = cell_at W x y ∧
  neighbor W H c Left = Some (cell_at W ((x + W - 1) mod W) y) ∧
  (x = 0 → neighbor W H c Left = Some (cell_at W (W - 1) y)) ∧
  neighbor W H c Right = Some (cell_at W ((x + 1) mod W) y) ∧
  (y = 0 → neighbor W H c Up = None) ∧
  (0 < y → neighbor W H c Up = Some (cell_at W x (y - 1))) ∧
  (y = H - 1 → neighbor W H c Down = None) ∧
  (y < H - 1 → neighbor W H c Down = Some (cell_at W x (y + 1))) ∧
  ∀ d e stack,
    neighbor W H c d = None → visit rnd W H c e stack d = Continue e stack.
Proof.
  intros Hc x y.
  assert (0 < W) as HW by nia.
  assert (x < W) as Hx by (apply Nat.mod_upper_bound; lia).
  assert (y < H) as Hy by (apply Nat.Div0.div_lt_upper_bound; lia).
  assert (c = cell_at W x y) as Hcell.
  { unfold cell_at, x, y. rewrite (Nat.div_mod_eq c W) at 1. lia. }
  split; [done|]. rewrite Hcell.
  rewrite !(neighbor_cell W H x y) by done.
  split_and!; try done.
  - intros ->. do 2 f_equal. rewrite Nat.add_0_l. apply Nat.mod_small. lia.
  - by intros ->.
  - intros Hy0. destruct (y =? 0) eqn:E; [apply Nat.eqb_eq in E; lia|done].
  - intros HyH. destruct (S y =? H) eqn:E; [done|apply Nat.eqb_neq in E; lia].
  - intros HyH. destruct (S y =? H) eqn:E; [apply Nat.eqb_eq in E; lia|].
    by rewrite Nat.add_1_r.
  - intros d e stack. apply visit_skipped.
Qed.

Lemma neighbours_wrap_in_x_only_witness :
  let x := 3 mod 3 in
  let y := 3 / 3 in
  3 = cell_at 3 x y ∧
  neighbor 3 2 3 Left = Some (cell_at 3 ((x + 3 - 1) mod 3) y) ∧
  (x = 0 → neighbor 3 2 3 Left = Some (cell_at 3 (3 - 1) y)) ∧
  neighbor 3 2 3 Right = Some (cell_at 3 ((x + 1) mod 3) y) ∧
  (y = 0 → neighbor 3 2 3 Up = None) ∧
  (0 < y → neighbor 3 2 3 Up = Some (cell_at 3 x (y - 1))) ∧
  (y = 2 - 1 → neighbor 3 2 3 Down = None) ∧
  (y < 2 - 1 → neighbor 3 2 3 Down = Some (cell_at 3 x (y + 1))) ∧
  ∀ d e stack,
    neighbor 3 2 3 d = None → visit rnd_zero 3 2 3 e stack d = Continue e stack.
Proof. apply (neighbours_wrap_in_x_only rnd_zero 3 2 3). lia. Defined.

(** C8 as worded fails: with a 2×2 pattern on a 1×1 sample and a grid of
    width and height zero, [setup] completes and installs a state. *)
Lemma setup_accepts_invalid_configuration :
  invalid_configuration 2 1 1 0 0 ∧
  ∃ e, setup 0 0 2 rnd_zero 0 black_pixel 1 1 1 1 = Some e ∧
       length (patterns e) = 1 ∧ wave e = ∅.
Proof.
  split; [left; lia|]. eexists. split; [reflexivity|]. by vm_compute.
Qed.

(** C8, amended.  [setup] checks nothing about its configuration: for
    every pattern dimension [N ≥ 1] it completes, whatever the sizes of the
    sample and of the grid, also when [N] exceeds the sample (the window
    wraps around) or the grid has no cell. *)
Theorem setup_never_rejects W H N rnd pos img w h cw ch :
  1 ≤ N → is_Some (setup W H N rnd pos img w h cw ch).
Proof. intros HN. rewrite setup_succeeds by done. by eexists. Qed.

Lemma setup_never_rejects_witness :
  is_Some (setup 0 0 2 rnd_zero 0 black_pixel 1 1 1 1).
Proof. apply (setup_never_rejects 0 0 2 rnd_zero 0 black_pixel 1 1 1 1). lia. Defined.

(** C9.  Every call of [draw] returns.  The propagation loop started from
    any state and any stack ends within [propagation_fuel] iterations (one
    more than the stack length plus the total size of the domains), and more
    fuel does not change its result; for a visit pushes a neighbour only
    after it has replaced the neighbour's domain by a non-empty set of
    strictly fewer candidates, all taken from the old domain. *)
Theorem step_terminates rnd W H :
  (∀ e, is_Some (draw rnd W H e)) ∧
  (∀ e stack fuel,
     propagation_fuel e stack ≤ fuel →
     ∃ r, propagate rnd W H (propagation_fuel e stack) e stack = Some r ∧
          propagate rnd W H fuel e stack = Some r) ∧
  (∀ cur e stack d e' stack',
     visit rnd W H cur e stack d = Continue e' stack' →
     (e' = e ∧ stack' = stack) ∨
     ∃ nb old new,
       stack' = nb :: stack ∧
       wave e !! nb = Some old ∧ wave e' = <[nb := new]> (wave e) ∧
       new ≠ [] ∧ length new < length old ∧ ∀ x, x ∈ new → x ∈ old).
Proof.
  split_and!.
  - apply draw_total.
  - intros e stack fuel Hfuel.
    destruct (propagate_terminates rnd W H e stack) as [r Hr].
    exists r. split; [done|]. by eapply propagate_mono.
  - intros cur e stack d e' stack' Hv.
    destruct (visit_cases rnd W H cur e stack d)
      as [H1|[H1|(nb & old & new & e1 & H1 & _ & _ & Hold & Hw & Hne & Hlt & Hsub & _)]];
      rewrite H1 in Hv; simplify_eq; [by left|].
    right. by exists nb, old, new.
Qed.

Lemma wave_collapse e c id : wave (collapse e c id) = <[c := [id]]> (wave e).
Proof. reflexivity. Qed.

(** a lookup after a write: the written cell, or another one *)
Ltac case_written k cell :=
  destruct (decide (k = cell)) as [->|?];
  [rewrite lookup_insert_eq|rewrite lookup_insert_ne by done].

(** C10.  After a [setup] that found at least one pattern, every cell of
    the grid has a non-empty domain, and so it has after any number of
    calls of [draw], whatever they returned: no domain stored in the Wave is
    ever empty. *)
Theorem domains_stay_nonempty W H N rnd pos img w h cw ch e0 :
  setup W H N rnd pos img w h cw ch = Some e0 →
  1 ≤ length (patterns e0) →
  ∀ n, ∃ os e,
    draws rnd W H n e0 = Some (os, e) ∧
    domains_nonempty W H e ∧
    ∀ cell s, wave e !! cell = Some s → s ≠ [].
Proof.
  intros [_ Hwave]%setup_adjacencies Hp n.
  destruct (draws_total rnd W H n e0) as [[os e] Hd].
  exists os, e. split; [done|].
  apply (draws_invariant rnd W H
           (λ e, domains_nonempty W H e ∧
                 ∀ cell s, wave e !! cell = Some s → s ≠ [])
           (λ _, True)) in Hd; [by destruct Hd| |].
  - intros e1 o e2 He1 Hdraw. split; [|done]. revert e1 o e2 He1 Hdraw.
    apply draw_invariant.
    + intros cur e1 stack d e2 stack2 [Hdom Hne] Hv.
      destruct (visit_cases rnd W H cur e1 stack d)
        as [H1|[H1|(nb & old & new & e3 & H1 & _ & _ & _ & Hw & Hnew & _)]];
        rewrite H1 in Hv; simplify_eq; [done|].
      unfold domains_nonempty. rewrite Hw. split.
      * intros cell Hcell. case_written nb cell; [by exists new|by apply Hdom].
      * intros cell s. case_written nb cell; [by intros [= <-]|apply Hne].
    + intros e1 c id [Hdom Hne] _.
      unfold domains_nonempty. rewrite wave_collapse. split.
      * intros cell Hcell. case_written c cell; [by eexists|by apply Hdom].
      * intros cell s. case_written c cell; [by intros [= <-]|apply Hne].
  - assert (all_ids (length (patterns e0)) ≠ []) as Hall.
    { unfold all_ids. destruct (length (patterns e0)); [lia|done]. }
    split.
    + intros cell Hcell. rewrite Hwave, waveInit_lookup.
      rewrite decide_True by done. by eexists.
    + intros cell s. rewrite Hwave, waveInit_lookup.
      case_decide; [|done]. by intros [= <-].
Qed.

Lemma domains_stay_nonempty_witness :
  ∃ e0,
    setup 2 1 3 rnd_half_first 0 stripes 3 1 2 1 = Some e0 ∧
    1 ≤ length (patterns e0) ∧
    ∀ n, ∃ os e,
      draws rnd_half_first 2 1 n e0 = Some (os, e) ∧
      domains_nonempty 2 1 e ∧
      ∀ cell s, wave e !! cell = Some s → s ≠ [].
Proof.
  eexists. split; [by vm_compute|]. split; [vm_compute; lia|].
  apply (domains_stay_nonempty 2 1 3 rnd_half_first 0 stripes 3 1 2 1).
  - by vm_compute.
  - vm_compute. lia.
Defined.

(** ** The insertion-ordered map *)

Section JsMapFacts.

Context {K V : Type} `{EqDecision K}.
Implicit Types (m : list (K * V)) (k : K) (v : V).

Lemma get_set_eq m k v : JsMap.get (JsMap.set m k v) k = Some v.
Proof.
  induction m as [|[k' v'] m IH]; simpl.
  - by rewrite decide_True.
  - destruct (decide (k' = k)) as [->|Hne]; simpl.
    + by rewrite decide_True.
    + by rewrite decide_False.
Qed.

Lemma get_set_ne m k k' v :
  k ≠ k' → JsMap.get (JsMap.set m k v) k' = JsMap.get m k'.
Proof.
  intros Hne. induction m as [|[k0 v0] m IH]; simpl.
  - by rewrite decide_False.
  - destruct (decide (k0 = k)) as [->|Hne0]; simpl.
    + by rewrite !decide_False.
    + by rewrite IH.
Qed.

Lemma has_elem_of m k : JsMap.has m k = true ↔ k ∈ m.*1.
Proof.
  unfold JsMap.has. induction m as [|[k' v'] m IH]; simpl.
  - split; [done|by intros ?%elem_of_nil].
  - rewrite elem_of_cons. destruct (decide (k' = k)) as [->|Hne].
    + split; auto.
    + rewrite IH. split; [auto|]. by intros [?|?].
Qed.

Lemma has_set m k k' v :
  JsMap.has (JsMap.set m k v) k' = true ↔ JsMap.has m k' = true ∨ k = k'.
Proof.
  unfold JsMap.has. destruct (decide (k = k')) as [->|Hne].
  - rewrite get_set_eq. split; auto.
  - rewrite get_set_ne by done. split; [auto|]. by intros [?|?].
Qed.

(** a write to a present key keeps the keys and their order *)
Lemma set_keys_present m k v :
  JsMap.has m k = true → (JsMap.set m k v).*1 = m.*1.
Proof.
  unfold JsMap.has.
  induction m as [|[k' v'] m IH]; cbn [JsMap.get JsMap.set]; [done|].
  destruct (decide (k' = k)) as [->|Hne]; [done|].
  intros Hm. rewrite !fmap_cons. f_equal. by apply IH.
Qed.

(** a write to an absent key appends it *)
Lemma set_keys_absent m k v :
  JsMap.has m k = false → (JsMap.set m k v).*1 = m.*1 ++ [k].
Proof.
  unfold JsMap.has.
  induction m as [|[k' v'] m IH]; cbn [JsMap.get JsMap.set]; [done|].
  destruct (decide (k' = k)) as [->|Hne]; [done|].
  intros Hm. rewrite !fmap_cons, IH by done. done.
Qed.

Lemma delete_keys m k : (JsMap.delete m k).*1 = filter (λ k', k' ≠ k) m.*1.
Proof.
  unfold JsMap.delete. induction m as [|[k' v'] m IH]; [done|].
  rewrite fmap_cons, (filter_cons (λ kv : K * V, kv.1 ≠ k)),
    (filter_cons (λ k', k' ≠ k)).
  cbn [fst]. destruct (decide (k' ≠ k)); [rewrite fmap_cons|]; by rewrite IH.
Qed.

Lemma has_delete m k k' :
  JsMap.has (JsMap.delete m k) k' = true ↔ JsMap.has m k' = true ∧ k' ≠ k.
Proof. rewrite !has_elem_of, delete_keys, list_elem_of_filter. tauto. Qed.

End JsMapFacts.

(** ** The minimum search *)

Lemma findMinEntropyKey_fold (h : list (nat * Q)) :
  match foldl (λ acc kv,
                 if below kv.2 acc.2 then (Some kv.1, Some kv.2) else acc)
              (None, None) h with
  | (None, None) => h = []
  | (Some k, Some v) =>
      ∃ h1 h2, h = h1 ++ (k, v) :: h2 ∧
               (∀ kv, kv ∈ h1 → (v < kv.2)%Q) ∧
               (∀ kv, kv ∈ h2 → (v <= kv.2)%Q)
  | _ => False
  end.
Proof.
  induction h as [|[k' v'] h IH] using rev_ind; [done|].
  rewrite foldl_snoc.
  destruct (foldl _ _ h) as [[k|] [v|]]; simpl in *; try done.
  - destruct IH as (h1 & h2 & -> & Hlt & Hle).
    destruct (Qlt_le_dec v' v) as [Hv|Hv].
    + exists (h1 ++ (k, v) :: h2), []. split; [done|]. split.
      * intros kv [Hin|[->|Hin]%elem_of_cons]%elem_of_app.
        -- eapply Qlt_trans; [done|]. by apply Hlt.
        -- done.
        -- eapply Qlt_le_trans; [done|]. by apply Hle.
      * by intros kv ?%elem_of_nil.
    + exists h1, (h2 ++ [(k', v')]). split; [by rewrite <-app_assoc|].
      split; [done|].
      intros kv [Hin| ->%list_elem_of_singleton]%elem_of_app; [by apply Hle|done].
  - subst. exists [], []. split; [done|].
    split; by intros kv ?%elem_of_nil.
Qed.

Lemma findMinEntropyKey_keep (l : list (nat * Q)) k v :
  (∀ kv, kv ∈ l → (v <= kv.2)%Q) →
  foldl (λ acc kv,
           if below kv.2 acc.2 then (Some kv.1, Some kv.2) else acc)
        (Some k, Some v) l = (Some k, Some v).
Proof.
  induction l as [|[k' v'] l IH]; intros Hle; [done|]. cbn [foldl fst snd].
  assert (below v' (Some v) = false) as ->.
  { simpl. destruct (Qlt_le_dec v' v) as [Hlt|]; [|done].
    exfalso. apply (Qlt_not_le _ _ Hlt). apply (Hle (k', v')). by left. }
  apply IH. intros kv Hkv. apply Hle. by right.
Qed.

(** the search returns the first key whose value no other value undercuts *)
Lemma findMinEntropyKey_at (h1 h2 : list (nat * Q)) k v :
  (∀ kv, kv ∈ h1 → (v < kv.2)%Q) →
  (∀ kv, kv ∈ h2 → (v <= kv.2)%Q) →
  findMinEntropyKey (h1 ++ (k, v) :: h2) = Some k.
Proof.
  intros Hlt Hle. unfold findMinEntropyKey. rewrite foldl_app. cbn [foldl].
  cbn [fst snd].
  assert (below v (foldl (λ acc kv,
              if below kv.2 acc.2 then (Some kv.1, Some kv.2) else acc)
            (None, None) h1).2 = true) as Hb.
  { pose proof (findMinEntropyKey_fold h1) as Hf.
    destruct (foldl _ _ h1) as [[k'|] [v'|]]; try done. simpl.
    destruct Hf as (g1 & g2 & -> & _ & _).
    destruct (Qlt_le_dec v v') as [|Hge]; [done|].
    exfalso. apply (Qlt_not_le v v'); [|done].
    apply (Hlt (k', v')). apply elem_of_app. right. by left. }
  rewrite Hb. by rewrite findMinEntropyKey_keep.
Qed.

(** X1.  [findMinEntropyKey] returns nothing exactly on the empty map, and
    otherwise the key of the first entry, in insertion order, whose value is
    minimal: every earlier entry has a strictly larger value and no later
    entry a smaller one. *)
Theorem findMinEntropyKey_first_minimum (h : list (nat * Q)) :
  (findMinEntropyKey h = None ↔ h = []) ∧
  ∀ k,
    findMinEntropyKey h = Some k ↔
    ∃ h1 v h2, h = h1 ++ (k, v) :: h2 ∧
               (∀ kv, kv ∈ h1 → (v < kv.2)%Q) ∧
               (∀ kv, kv ∈ h2 → (v <= kv.2)%Q).
Proof.
  pose proof (findMinEntropyKey_fold h) as Hf. unfold findMinEntropyKey in *.
  split.
  - split; [|by intros ->].
    destruct (foldl _ _ h) as [[k|] [v|]]; done.
  - intros k. split.
    + destruct (foldl _ _ h) as [[k'|] [v|]]; try done.
      intros [= ->]. destruct Hf as (h1 & h2 & ? & ? & ?). by exists h1, v, h2.
    + intros (h1 & v & h2 & -> & Hlt & Hle).
      by apply findMinEntropyKey_at.
Qed.

(** ** The entropy map after [setup] *)

Lemma set_absent {V} (m : list (nat * V)) k v :
  k ∉ m.*1 → JsMap.set m k v = m ++ [(k, v)].
Proof.
  induction m as [|[k' v'] m IH]; intros Hk; cbn [JsMap.set]; [done|].
  rewrite fmap_cons, not_elem_of_cons in Hk. destruct Hk as [Hne Hk].
  rewrite decide_False by done. by rewrite IH.
Qed.

Lemma set_present {V} (m1 m2 : list (nat * V)) k v0 v :
  k ∉ m1.*1 → JsMap.set (m1 ++ (k, v0) :: m2) k v = m1 ++ (k, v) :: m2.
Proof.
  induction m1 as [|[k' v'] m1 IH]; intros Hk; cbn [JsMap.set app].
  - by rewrite decide_True.
  - rewrite fmap_cons, not_elem_of_cons in Hk. destruct Hk as [Hne Hk].
    rewrite decide_False by done. by rewrite IH.
Qed.

Lemma fill_entropy {V} (v : V) len : ∀ a,
  foldl (λ e i, JsMap.set e i v) ((λ i, (i, v)) <$> seq 0 a) (seq a len) =
  (λ i, (i, v)) <$> seq 0 (a + len).
Proof.
  induction len as [|len IH]; intros a; cbn [seq foldl].
  - by rewrite Nat.add_0_r.
  - rewrite set_absent.
    + replace (a + S len) with (S a + len) by lia. rewrite <-IH.
      by rewrite seq_S, fmap_app.
    + rewrite <-list_fmap_compose, list_fmap_id, elem_of_seq. lia.
Qed.

Lemma fill_entropy_all {V} (v : V) len :
  foldl (λ e i, JsMap.set e i v) [] (seq 0 len) = (λ i, (i, v)) <$> seq 0 len.
Proof. apply (fill_entropy v len 0). Qed.

Lemma initEntropy_cells W H n r :
  1 ≤ W * H →
  let seed := random_index r (W * H) in
  let full := inject_Z (Z.of_nat n) in
  initEntropy W H n r =
  ((λ i, (i, full)) <$> seq 0 seed) ++ (seed, full - 1)%Q ::
  ((λ i, (i, full)) <$> seq (S seed) (W * H - S seed)).
Proof.
  intros Hcells seed full. unfold initEntropy. cbv zeta.
  pose proof (random_index_lt r (W * H) Hcells) as Hseed. fold seed in Hseed.
  fold full. rewrite (fill_entropy_all full (W * H)). fold seed.
  replace (W * H) with (seed + S (W * H - S seed)) at 1 by lia.
  rewrite seq_app, fmap_app. cbn [seq fmap list_fmap]. rewrite Nat.add_0_l.
  apply set_present.
  rewrite <-list_fmap_compose, list_fmap_id, elem_of_seq. lia.
Qed.

Lemma below_full (n : nat) :
  (inject_Z (Z.of_nat n) - 1 < inject_Z (Z.of_nat n))%Q.
Proof. unfold Qlt. simpl. lia. Qed.



Lemma random_index_none r : random_index r 0 = 0.
Proof.
  unfold random_index. destruct (uq r) as [a b]. simpl.
  by rewrite Z.mul_0_r.
Qed.

(** X3.  On a grid without cells [setup] still writes the seed: the entropy
    map gets the single key 0, which the Wave does not have, and every
    [draw] then returns [null] and changes nothing. *)
Theorem setup_empty_grid W H N rnd pos img w h cw ch e0 :
  setup W H N rnd pos img w h cw ch = Some e0 →
  W * H = 0 →
  wave e0 = ∅ ∧
  entropy e0 = [(0, (inject_Z (Z.of_nat (length (patterns e0))) - 1)%Q)] ∧
  ∀ n, draws rnd W H n e0 = Some (replicate n ReturnNull, e0).
Proof.
  intros Hsetup Hcells.
  assert (entropy e0 =
            initEntropy W H (length (patterns e0)) (rnd pos) ∧
          wave e0 = waveInit W H (length (patterns e0))) as (He & Hw).
  { unfold setup in Hsetup.
    destruct (extract N img w h) as [allPatterns|]; [|done].
    by injection Hsetup as <-. }
  assert (entropy e0 =
            [(0, (inject_Z (Z.of_nat (length (patterns e0))) - 1)%Q)]) as He0.
  { rewrite He. unfold initEntropy. rewrite Hcells. cbv zeta.
    by rewrite random_index_none. }
  split_and!; [|done|].
  - rewrite Hw. unfold waveInit. by rewrite Hcells.
  - assert (draw rnd W H e0 = Some (ReturnNull, e0)) as Hd.
    { apply draw_minimum_at_zero. by rewrite He0. }
    intros n. induction n as [|n IH]; [done|].
    cbn [draws]. rewrite Hd. cbn. rewrite IH. done.
Qed.

Lemma setup_empty_grid_witness :
  ∃ e0,
    setup 0 3 2 rnd_zero 0 black_pixel 1 1 1 1 = Some e0 ∧
    wave e0 = ∅ ∧
    entropy e0 = [(0, (inject_Z (Z.of_nat (length (patterns e0))) - 1)%Q)] ∧
    ∀ n, draws rnd_zero 0 3 n e0 = Some (replicate n ReturnNull, e0).
Proof.
  eexists. split; [by vm_compute|].
  apply (setup_empty_grid 0 3 2 rnd_zero 0 black_pixel 1 1 1 1);
    [by vm_compute|lia].
Defined.

(** ** The weighted selection *)

Lemma elem_of_weightedPatterns fs s x :
  x ∈ weightedPatterns fs s ↔ x ∈ s ∧ 1 ≤ frequency_of fs x.
Proof.
  unfold weightedPatterns. rewrite list_elem_of_bind. split.
  - intros (y & [-> Hn]%elem_of_replicate & Hy). split; [done|lia].
  - intros [Hx Hf]. exists x. split; [|done].
    apply elem_of_replicate. split; [done|lia].
Qed.

(** a selected element is a member of the domain of a cell other than 0,
    of frequency at least 1, or [undefined] when every member has
    frequency 0 *)
Lemma selectRandomPattern_Selected w c fs r id :
  selectRandomPattern w c fs r = Selected id →
  ∃ cell s,
    c = Some cell ∧ cell ≠ 0 ∧ w !! cell = Some s ∧ s ≠ [] ∧
    ((id ∈ s ∧ 1 ≤ frequency_of fs id) ∨
     (id = Undefined ∧ ∀ x, x ∈ s → frequency_of fs x = 0)).
Proof.
  unfold selectRandomPattern. destruct c as [[|cell]|]; [done| |done].
  destruct (w !! S cell) as [[|y s]|] eqn:Hs; [done| |done].
  change (JsSet.size (y :: s) =? 0) with false. cbv iota.
  set (pool := weightedPatterns fs (y :: s)).
  destruct (pool !! random_index r (length pool)) as [x|] eqn:Hx;
    cbn [default]; intros [= <-]; exists (S cell), (y :: s);
    (split_and!; [done..|]).
  - left. apply elem_of_weightedPatterns.
    apply (list_elem_of_lookup_2 _ _ _ Hx).
  - right. split; [done|]. intros x Hxs.
    destruct (frequency_of fs x) as [|f] eqn:Hf; [done|]. exfalso.
    assert (x ∈ pool) as Hin.
    { apply elem_of_weightedPatterns. split; [done|lia]. }
    apply lookup_ge_None in Hx.
    pose proof (random_index_lt r (length pool)) as Hlt.
    destruct pool; [by apply elem_of_nil in Hin|].
    simpl in *. lia.
Qed.

(** X4.  [selectRandomPattern] returns [null] exactly when it is given no
    cell, the cell 0, a cell the Wave lacks or a cell with an empty domain.
    Otherwise it returns a member of the cell's domain whose frequency is at
    least 1, or [undefined] when every member has frequency 0: a pattern of
    frequency 0 is never selected. *)
Theorem selectRandomPattern_selects_member w c fs r :
  (selectRandomPattern w c fs r = SelectedNull ↔
   c = None ∨ c = Some 0 ∨
   ∃ cell, c = Some cell ∧ (w !! cell = None ∨ w !! cell = Some [])) ∧
  ∀ id,
    selectRandomPattern w c fs r = Selected id →
    ∃ cell s,
      c = Some cell ∧ cell ≠ 0 ∧ w !! cell = Some s ∧ s ≠ [] ∧
      ((id ∈ s ∧ 1 ≤ frequency_of fs id) ∨
       (id = Undefined ∧ ∀ x, x ∈ s → frequency_of fs x = 0)).
Proof.
  split; [|intros id; apply selectRandomPattern_Selected].
  unfold selectRandomPattern. destruct c as [[|cell]|].
  - split; auto.
  - destruct (w !! S cell) as [[|y s]|] eqn:Hs.
    + split; [|done]. intros _. right; right. exists (S cell). auto.
    + change (JsSet.size (y :: s) =? 0) with false. cbv iota.
      split; [done|].
      intros [?|[?|(cell' & [= <-] & [?|?])]]; simplify_eq.
    + split; [|done]. intros _. right; right. exists (S cell). auto.
  - split; auto.
Qed.

Lemma filter_replicate_eq (x y : pid) n :
  filter (λ z, z = x) (replicate n y) = if decide (y = x) then replicate n y else [].
Proof.
  induction n as [|n IH]; [by case_decide|].
  rewrite replicate_S, filter_cons, IH. by repeat case_decide.
Qed.

(** X5.  The pool built from a duplicate-free domain holds each member as
    often as its frequency says and nothing else, so its length is the sum
    of the members' frequencies: an index drawn uniformly from the pool picks
    each pattern in proportion to its frequency. *)
Theorem weightedPatterns_counts fs (s : list pid) :
  NoDup s →
  (∀ x, occurrences x (weightedPatterns fs s) =
        if decide (x ∈ s) then frequency_of fs x else 0) ∧
  length (weightedPatterns fs s) = sum_list (frequency_of fs <$> s).
Proof.
  unfold weightedPatterns, occurrences. intros Hs. split.
  - intros x. induction Hs as [|y s Hy Hs IH].
    + by rewrite decide_False by apply not_elem_of_nil.
    + rewrite bind_cons, filter_app, length_app, IH, filter_replicate_eq.
      destruct (decide (y = x)) as [->|Hne].
      * rewrite length_replicate, decide_False by done.
        rewrite decide_True by by left. lia.
      * simpl. destruct (decide (x ∈ s)).
        -- rewrite decide_True; [done|by right].
        -- rewrite decide_False; [done|].
           by intros [?|?]%elem_of_cons.
  - clear Hs. induction s as [|y s IH]; [done|].
    rewrite bind_cons, length_app, length_replicate, IH. done.
Qed.

Lemma weightedPatterns_counts_witness :
  (∀ x, occurrences x (weightedPatterns [3; 1] [Pid 0; Pid 1]) =
        if decide (x ∈ [Pid 0; Pid 1]) then frequency_of [3; 1] x else 0) ∧
  length (weightedPatterns [3; 1] [Pid 0; Pid 1]) =
  sum_list (frequency_of [3; 1] <$> [Pid 0; Pid 1]).
Proof.
  apply (weightedPatterns_counts [3; 1] [Pid 0; Pid 1]).
  apply (bool_decide_unpack _). by vm_compute.
Defined.

(** ** Intersections *)

Lemma add_fresh (s : list pid) x : x ∉ s → JsSet.add s x = s ++ [x].
Proof.
  intros Hx. unfold JsSet.add. destruct (JsSet.has s x) eqn:E; [|done].
  by apply has_true in E.
Qed.

Lemma intersect_filter_acc (b : list pid) : ∀ a acc,
  NoDup a → (∀ y, y ∈ acc → y ∉ a) →
  foldl (λ intersection elem,
           if JsSet.has b elem then JsSet.add intersection elem
           else intersection) acc a
  = acc ++ filter (λ x, x ∈ b) a.
Proof.
  induction a as [|x a IH]; intros acc Ha Hacc; cbn [foldl].
  - by rewrite app_nil_r.
  - apply NoDup_cons in Ha as [Hx Ha]. rewrite filter_cons.
    destruct (JsSet.has b x) eqn:E.
    + apply has_true in E. rewrite decide_True by done.
      rewrite add_fresh.
      * rewrite IH; [by rewrite <-app_assoc|done|].
        intros y [Hy| ->%list_elem_of_singleton]%elem_of_app Hya; [|done].
        apply (Hacc y Hy). by right.
      * intros Hxa. apply (Hacc x Hxa). by left.
    + rewrite decide_False by (intros ?%has_true; congruence).
      apply IH; [done|]. intros y Hy Hya. apply (Hacc y Hy). by right.
Qed.

Lemma NoDup_possible_in A o d : NoDup (possible_in A o d).
Proof.
  destruct o as [current|]; simpl; [|apply NoDup_nil_2].
  assert (∀ acc, NoDup acc →
            NoDup (foldl (λ possiblePatterns idP,
               match adjacency_get A idP with
               | None => possiblePatterns
               | Some adjacencyMaps =>
                   match adjacencyMaps !! directionMapping d with
                   | None => possiblePatterns
                   | Some inDirection => foldl JsSet.add possiblePatterns inDirection
                   end
               end) acc current)) as Hfold.
  { induction current as [|idP current IH]; intros acc Hacc; cbn [foldl]; [done|].
    apply IH. destruct (adjacency_get A idP) as [sets|]; [|done].
    destruct (sets !! directionMapping d); [|done].
    by apply NoDup_foldl_add. }
  apply Hfold, NoDup_nil_2.
Qed.

(** X6.  On a duplicate-free first argument [intersectSets] is a filter: it
    keeps, in their order, the members of the first set that the second one
    has.  The set of possible patterns that propagation builds is
    duplicate-free, so the domain a narrowing writes lists the surviving
    candidates in the order of the possible patterns. *)
Theorem intersectSets_filters (a b : list pid) :
  NoDup a →
  intersectSets a b = filter (λ x, x ∈ b) a ∧
  ∀ A o d,
    intersectSets (possible_in A o d) a =
    filter (λ x, x ∈ a) (possible_in A o d).
Proof.
  intros Ha. split.
  - unfold intersectSets. rewrite intersect_filter_acc; [done..|].
    by intros y ?%elem_of_nil.
  - intros A o d. unfold intersectSets.
    rewrite intersect_filter_acc; [done|apply NoDup_possible_in|].
    by intros y ?%elem_of_nil.
Qed.

Lemma intersectSets_filters_witness :
  intersectSets [Pid 2; Pid 0; Pid 1] [Pid 1; Pid 2] =
    filter (λ x, x ∈ [Pid 1; Pid 2]) [Pid 2; Pid 0; Pid 1] ∧
  ∀ A o d,
    intersectSets (possible_in A o d) [Pid 2; Pid 0; Pid 1] =
    filter (λ x, x ∈ [Pid 2; Pid 0; Pid 1]) (possible_in A o d).
Proof.
  apply (intersectSets_filters [Pid 2; Pid 0; Pid 1] [Pid 1; Pid 2]).
  apply (bool_decide_unpack _). by vm_compute.
Defined.

(** X7.  For a duplicate-free domain, [isSubSetOf] lets propagation skip a
    neighbour exactly when intersecting would keep every one of its
    candidates; whenever it does not skip, the intersection is strictly
    smaller than the domain. *)
Theorem skip_when_nothing_to_remove (available possible : list pid) :
  NoDup available →
  (isSubSetOf available possible = true ↔
   length (intersectSets possible available) = length available) ∧
  (isSubSetOf available possible = false ↔
   length (intersectSets possible available) < length available).
Proof.
  intros Ha.
  assert (isSubSetOf available possible = false →
          length (intersectSets possible available) < length available) as Hlt.
  { intros (x & Hxa & Hxp)%isSubSetOf_false.
    apply (strict_subset_length _ _ x); [apply NoDup_intersectSets| |done|].
    - by intros y [_ ?]%elem_of_intersectSets.
    - by intros [? _]%elem_of_intersectSets. }
  assert (isSubSetOf available possible = true →
          length (intersectSets possible available) = length available) as Heq.
  { intros Hsub. rewrite isSubSetOf_true in Hsub.
    apply Nat.le_antisymm.
    - apply submseteq_length, NoDup_submseteq; [apply NoDup_intersectSets|].
      by intros y [_ ?]%elem_of_intersectSets.
    - apply submseteq_length, NoDup_submseteq; [done|].
      intros y Hy. apply elem_of_intersectSets. auto. }
  destruct (isSubSetOf available possible) eqn:E.
  - specialize (Heq eq_refl). split; (split; intros ?); done || lia.
  - specialize (Hlt eq_refl). split; (split; intros ?); done || lia.
Qed.

Lemma skip_when_nothing_to_remove_witness :
  (isSubSetOf [Pid 0; Pid 1] [Pid 1; Pid 2] = true ↔
   length (intersectSets [Pid 1; Pid 2] [Pid 0; Pid 1]) = length [Pid 0; Pid 1]) ∧
  (isSubSetOf [Pid 0; Pid 1] [Pid 1; Pid 2] = false ↔
   length (intersectSets [Pid 1; Pid 2] [Pid 0; Pid 1]) < length [Pid 0; Pid 1]).
Proof.
  apply (skip_when_nothing_to_remove [Pid 0; Pid 1] [Pid 1; Pid 2]).
  apply (bool_decide_unpack _). by vm_compute.
Defined.

(** ** Deduplication and frequencies *)

Section Deduplication.

Implicit Types (p q : pattern) (u l : list pattern).

Lemma set_append {K V} `{EqDecision K} (m : list (K * V)) k v :
  k ∉ m.*1 → JsMap.set m k v = m ++ [(k, v)].
Proof.
  induction m as [|[k' v'] m IH]; intros Hk; cbn [JsMap.set]; [done|].
  rewrite fmap_cons, not_elem_of_cons in Hk. destruct Hk as [Hne Hk].
  rewrite decide_False by done. by rewrite IH.
Qed.

Lemma get_tagged (f : pattern → nat) u q :
  JsMap.get ((λ p, (p, f p)) <$> u) q =
  if decide (q ∈ u) then Some (f q) else None.
Proof.
  induction u as [|p u IH]; cbn [fmap list_fmap JsMap.get].
  - by rewrite decide_False by apply not_elem_of_nil.
  - destruct (decide (p = q)) as [->|Hne].
    + rewrite decide_True; [done|by left].
    + change (list_fmap _ _ ?g u) with (g <$> u). rewrite IH.
      destruct (decide (q ∈ u)).
      * rewrite decide_True; [done|by right].
      * rewrite decide_False; [done|]. by intros [?|?]%elem_of_cons.
Qed.

Lemma set_tagged (f : pattern → nat) u p v :
  NoDup u → p ∈ u →
  JsMap.set ((λ q, (q, f q)) <$> u) p v =
  (λ q, (q, if decide (q = p) then v else f q)) <$> u.
Proof.
  induction 1 as [|q u Hq Hu IH]; intros Hp; [by apply elem_of_nil in Hp|].
  rewrite !fmap_cons. cbn [JsMap.set].
  destruct (decide (q = p)) as [->|Hne].
  - f_equal. apply list_fmap_ext. intros i q Hi.
    rewrite decide_False; [done|]. intros ->.
    apply Hq. by eapply list_elem_of_lookup_2.
  - f_equal. apply IH. by apply elem_of_cons in Hp as [?|?].
Qed.

Lemma get_indexed u : ∀ a k p,
  NoDup u → u !! k = Some p →
  JsMap.get (zip u (seq a (length u))) p = Some (a + k).
Proof.
  induction u as [|q u IH]; intros a k p Hu Hk; [done|].
  apply NoDup_cons in Hu as [Hq Hu]. cbn [length seq zip zip_with JsMap.get].
  destruct k as [|k].
  - injection Hk as ->. rewrite decide_True by done. f_equal. lia.
  - simpl in Hk. rewrite decide_False.
    + change (zip_with pair u ?s) with (zip u s).
      rewrite (IH (S a) k p) by done. f_equal. lia.
    + intros ->. apply Hq. by eapply list_elem_of_lookup_2.
Qed.

Lemma occurrences_snoc l p q :
  occurrences q (l ++ [p]) = occurrences q l + (if decide (p = q) then 1 else 0).
Proof.
  unfold occurrences. rewrite filter_app, length_app, filter_cons, filter_nil.
  by case_decide.
Qed.

Lemma occurrences_absent l q : q ∉ l → occurrences q l = 0.
Proof.
  intros Hq. unfold occurrences. induction l as [|p l IH]; [done|].
  apply not_elem_of_cons in Hq as [Hne Hq].
  rewrite filter_cons, decide_False by done. by apply IH.
Qed.

Lemma occurrences_present l q : q ∈ l → 1 ≤ occurrences q l.
Proof.
  unfold occurrences. induction l as [|p l IH]; [by intros ?%elem_of_nil|].
  rewrite filter_cons. intros [->|Hq]%elem_of_cons.
  - rewrite decide_True by done. simpl. lia.
  - case_decide; simpl; [lia|by apply IH].
Qed.

(** the state of the three containers after the patterns [l] *)
Lemma deduplicate_state l :
  let lib := deduplicate l in
  NoDup (uniquePatterns lib) ∧
  (∀ p, p ∈ uniquePatterns lib ↔ p ∈ l) ∧
  patternCounts lib = (λ p, (p, occurrences p l)) <$> uniquePatterns lib ∧
  patternIndexMap lib =
    zip (uniquePatterns lib) (seq 0 (length (uniquePatterns lib))).
Proof.
  induction l as [|p l IH] using rev_ind.
  - split_and!; [apply NoDup_nil_2|done..].
  - unfold deduplicate in *. rewrite foldl_snoc. cbv zeta in *.
    destruct IH as (Hnd & Hmem & Hcounts & Hindex).
    set (lib := foldl count_pattern (Library [] [] []) l) in *.
    unfold count_pattern. rewrite Hcounts, get_tagged.
    destruct (decide (p ∈ uniquePatterns lib)) as [Hp|Hp].
    + cbn [uniquePatterns patternCounts patternIndexMap].
      split_and!; [done| | |done].
      * intros q. rewrite Hmem, elem_of_app, list_elem_of_singleton.
        split; [auto|]. intros [?| ->]; [done|]. by apply Hmem.
      * rewrite set_tagged by done. apply list_fmap_ext. intros i q Hi.
        f_equal. rewrite occurrences_snoc.
        destruct (decide (q = p)) as [->|?].
        -- by rewrite decide_True.
        -- rewrite decide_False by done. lia.
    + cbn [uniquePatterns patternCounts patternIndexMap].
      split_and!.
      * apply NoDup_app. split_and!; [done| |apply NoDup_singleton].
        by intros q Hq ->%list_elem_of_singleton.
      * intros q. rewrite !elem_of_app, Hmem. done.
      * rewrite set_append.
        2:{ by rewrite <-list_fmap_compose, list_fmap_id. }
        rewrite fmap_app. f_equal.
        -- apply list_fmap_ext. intros i q Hi. f_equal.
           rewrite occurrences_snoc, decide_False; [lia|].
           intros ->. apply Hp. by eapply list_elem_of_lookup_2.
        -- cbn. rewrite occurrences_snoc, decide_True by done.
           rewrite occurrences_absent; [done|]. by rewrite <-Hmem.
      * rewrite Hindex, set_append.
        2:{ rewrite fst_zip; [done|]. by rewrite length_seq. }
        rewrite length_app. cbn [length]. rewrite Nat.add_1_r, seq_S.
        rewrite zip_with_app by by rewrite length_seq. done.
Qed.

(** [freqs_of] writes the count of each pattern at the pattern's index *)
Lemma freqs_of_tagged (f : pattern → nat) u :
  NoDup u →
  freqs_of (Library ((λ p, (p, f p)) <$> u) u (zip u (seq 0 (length u)))) =
  f <$> u.
Proof.
  intros Hu. unfold freqs_of.
  cbn [uniquePatterns patternCounts patternIndexMap].
  set (n := length u).
  set (step := λ (freqs : list nat) (kc : pattern * nat),
                 match JsMap.get (zip u (seq 0 n)) kc.1 with
                 | Some index => <[index := kc.2]> freqs
                 | None => freqs
                 end).
  assert (∀ k, k ≤ n →
            foldl step (replicate n 0) (take k ((λ p, (p, f p)) <$> u)) =
            (f <$> take k u) ++ replicate (n - k) 0) as Hk.
  { induction k as [|k IH]; intros Hle.
    - by rewrite !take_0, Nat.sub_0_r.
    - destruct (lookup_lt_is_Some_2 u k) as [p Hp]; [unfold n in Hle; lia|].
      rewrite (take_S_r _ _ (p, f p)) by by rewrite list_lookup_fmap, Hp.
      rewrite foldl_snoc, IH by lia. unfold step at 1. cbn [fst snd].
      unfold n at 1. rewrite (get_indexed u 0 k p) by done. cbn [Nat.add].
      rewrite (take_S_r _ _ p) by done. rewrite fmap_app, <-app_assoc.
      replace (n - k) with (S (n - S k)) by lia.
      rewrite insert_app_r_alt; rewrite length_fmap, length_take; [|lia].
      replace (k - k `min` length u) with 0 by (unfold n in Hle; lia).
      done. }
  specialize (Hk n (Nat.le_refl n)).
  rewrite !firstn_all2 in Hk by (rewrite ?length_fmap; done).
  rewrite Hk, Nat.sub_diag. apply app_nil_r.
Qed.

End Deduplication.

(** the frequency table is the table of occurrence counts *)
Lemma freqs_of_deduplicate (allPatterns : list pattern) :
  freqs_of (deduplicate allPatterns) =
  (λ p, occurrences p allPatterns) <$> uniquePatterns (deduplicate allPatterns).
Proof.
  destruct (deduplicate_state allPatterns) as (Hnd & Hmem & Hcounts & Hindex).
  cbv zeta in *. set (lib := deduplicate allPatterns) in *.
  rewrite <-(freqs_of_tagged _ _ Hnd). f_equal.
  destruct lib. simpl in *. by subst.
Qed.

Lemma sum_indicator (u : list pattern) p :
  NoDup u →
  sum_list ((λ q, if decide (p = q) then 1 else 0) <$> u) =
  if decide (p ∈ u) then 1 else 0.
Proof.
  induction 1 as [|q u Hq Hu IH].
  - by rewrite decide_False by apply not_elem_of_nil.
  - rewrite fmap_cons. cbn [sum_list]. rewrite IH.
    destruct (decide (p = q)) as [->|Hne].
    + rewrite decide_False by done. rewrite decide_True; [done|by left].
    + destruct (decide (p ∈ u)).
      * rewrite decide_True; [done|by right].
      * rewrite decide_False; [done|]. by intros [?|?]%elem_of_cons.
Qed.

Lemma sum_occurrences (u l : list pattern) :
  NoDup u → (∀ p, p ∈ l → p ∈ u) →
  sum_list ((λ q, occurrences q l) <$> u) = length l.
Proof.
  intros Hu. induction l as [|p l IH]; intros Hl.
  - unfold occurrences. clear. induction u as [|q u IH]; [done|].
    rewrite fmap_cons. cbn [sum_list]. by rewrite IH.
  - assert (sum_list ((λ q, occurrences q (p :: l)) <$> u) =
            sum_list ((λ q, if decide (p = q) then 1 else 0) <$> u) +
            sum_list ((λ q, occurrences q l) <$> u)) as ->.
    { clear. induction u as [|q u IH]; [done|].
      rewrite !fmap_cons. cbn [sum_list]. rewrite IH.
      unfold occurrences at 1. rewrite filter_cons.
      unfold occurrences. case_decide; simpl; lia. }
    rewrite sum_indicator by done. rewrite decide_True by (apply Hl; by left).
    rewrite IH; [done|]. intros q Hq. apply Hl. by right.
Qed.

Lemma frequencies_total (allPatterns : list pattern) :
  sum_list (freqs_of (deduplicate allPatterns)) = length allPatterns.
Proof.
  destruct (deduplicate_state allPatterns) as (Hnd & Hmem & _).
  rewrite freqs_of_deduplicate.
  apply sum_occurrences; [done|]. intros p. apply Hmem.
Qed.

(** X8.  The deduplication keeps each distinct pattern once, in the order
    of first appearance (the ids given after a prefix of the patterns stay
    when more patterns follow), and the frequency table runs parallel to the
    patterns: entry [i] is the number of times pattern [i] was generated, at
    least 1, and the frequencies add up to the number of generated
    patterns. *)
Theorem deduplicate_counts_occurrences (allPatterns : list pattern) :
  let lib := deduplicate allPatterns in
  NoDup (uniquePatterns lib) ∧
  (∀ p, p ∈ uniquePatterns lib ↔ p ∈ allPatterns) ∧
  length (freqs_of lib) = length (uniquePatterns lib) ∧
  (∀ i p, uniquePatterns lib !! i = Some p →
          freqs_of lib !! i = Some (occurrences p allPatterns) ∧
          1 ≤ occurrences p allPatterns) ∧
  sum_list (freqs_of lib) = length allPatterns ∧
  (∀ more, uniquePatterns lib `prefix_of`
           uniquePatterns (deduplicate (allPatterns ++ more))).
Proof.
  intros lib.
  destruct (deduplicate_state allPatterns) as (Hnd & Hmem & _).
  fold lib in Hnd, Hmem.
  pose proof (freqs_of_deduplicate allPatterns) as Hfreqs. fold lib in Hfreqs.
  split_and!; [done|done| | |apply frequencies_total|].
  - by rewrite Hfreqs, length_fmap.
  - intros i p Hp. rewrite Hfreqs, list_lookup_fmap, Hp. split; [done|].
    apply occurrences_present, Hmem. by eapply list_elem_of_lookup_2.
  - intros more. unfold lib, deduplicate. rewrite foldl_app.
    generalize (foldl count_pattern (Library [] [] []) allPatterns).
    induction more as [|p more IH]; intros lib0; [done|]. cbn [foldl].
    etrans; [|apply IH]. unfold count_pattern.
    destruct (JsMap.get (patternCounts lib0) p); [done|].
    by apply prefix_app_r.
Qed.

(** ** What a step changes *)

Section StepFacts.

Variable rnd : nat → unit_q.
Variables outputDimWidth outputDimHeight : nat.

#[local] Abbreviation visit' := (visit rnd outputDimWidth outputDimHeight).
#[local] Abbreviation propagate' := (propagate rnd outputDimWidth outputDimHeight).
#[local] Abbreviation neighbor' := (neighbor outputDimWidth outputDimHeight).
#[local] Abbreviation draw' := (draw rnd outputDimWidth outputDimHeight).
#[local] Abbreviation draws' := (draws rnd outputDimWidth outputDimHeight).

(** a visit that goes on either changed nothing or narrowed one uncollapsed
    neighbour, rewrote its entropy and pushed it *)
Lemma visit_narrows cur e stack d e' stack' :
  visit' cur e stack d = Continue e' stack' →
  (e' = e ∧ stack' = stack) ∨
  ∃ nb old new v,
    stack' = nb :: stack ∧
    neighbor' cur d = Some nb ∧
    JsMap.has (entropy e) nb = true ∧
    wave e !! nb = Some old ∧
    new ≠ [] ∧ length new < length old ∧
    (∀ x, x ∈ new ↔
          x ∈ old ∧ may_follow (adjacencies e) (default [] (wave e !! cur)) d x) ∧
    e' = Engine (<[nb := new]> (wave e)) (adjacencies e)
                (JsMap.set (entropy e) nb v) (patterns e) (frequencies e)
                (cellDimensionX e) (cellDimensionY e) (S (rng e)).
Proof.
  unfold visit.
  destruct (neighbor' cur d) as [nb|] eqn:Hnb; [|intros [= <- <-]; by left].
  destruct (JsMap.has (entropy e) nb) eqn:Hhas; [|intros [= <- <-]; by left].
  set (possible := possible_in _ _ _).
  set (available := JsSet.of_list _).
  destruct (isSubSetOf available possible) eqn:Hsub;
    [intros [= <- <-]; by left|].
  destruct (JsSet.size (intersectSets possible available) =? 0) eqn:Hsz;
    [done|].
  intros [= <- <-]. right.
  apply isSubSetOf_false in Hsub as (x & Hxa & Hxp).
  subst available. rewrite elem_of_of_list in Hxa.
  destruct (wave e !! nb) as [old|] eqn:Hold; simpl in Hxa;
    [|by apply elem_of_nil in Hxa].
  eexists nb, old, _, _. split_and!; try done.
  - apply Nat.eqb_neq in Hsz. unfold JsSet.size in Hsz.
    intros Heq. by rewrite Heq in Hsz.
  - apply (strict_subset_length _ _ x); [apply NoDup_intersectSets| |done|].
    + intros y [_ Hy]%elem_of_intersectSets. by rewrite elem_of_of_list in Hy.
    + intros [? _]%elem_of_intersectSets. done.
  - intros y. rewrite elem_of_intersectSets, elem_of_of_list.
    unfold possible. rewrite possible_in_spec. simpl. tauto.
Qed.

(** the ways [draw] returns *)
Lemma draw_cases e o e' :
  draw' e = Some (o, e') →
  (o = ReturnNull ∧ e' = e) ∨
  ∃ c id r,
    findMinEntropyKey (entropy e) = Some c ∧
    selectRandomPattern (wave e) (Some c) (frequencies e) (rnd (rng e))
      = Selected id ∧
    propagate' (propagation_fuel (collapse e c id) [c]) (collapse e c id) [c]
      = Some r ∧
    e' = final r ∧
    ((r = Contradicted e' ∧ o = ReturnUndefined) ∨
     (r = Completed e' ∧
      ((o = ReturnNull ∧
        (id = Undefined ∨ ∃ n, id = Pid n ∧ patterns e' !! n = None)) ∨
       ∃ n p, id = Pid n ∧ patterns e' !! n = Some p ∧
              o = ReturnStep p c (cellDimensionX e') (cellDimensionY e')))).
Proof.
  unfold draw.
  destruct (JsMap.size (entropy e) =? 0); [intros [= <- <-]; by left|].
  destruct (findMinEntropyKey (entropy e)) as [c|] eqn:Hmin;
    [|intros [= <- <-]; by left].
  destruct (selectRandomPattern _ _ _ _) as [|id] eqn:Hsel;
    [intros [= <- <-]; by left|].
  destruct (propagate' _ _ _) as [[e1|e1]|] eqn:Hp; [| |done].
  - intros Hd. right. exists c, id, (Completed e1).
    destruct id as [|n].
    + injection Hd as <- <-. split_and!; try done. right. split; [done|].
      left. split; [done|]. by left.
    + destruct (patterns e1 !! n) as [p|] eqn:Hpat; injection Hd as <- <-.
      * split_and!; try done. right. split; [done|]. right. by exists n, p.
      * split_and!; try done. right. split; [done|]. left. split; [done|].
        right. by exists n.
  - intros [= <- <-]. right. exists c, id, (Contradicted e1).
    split_and!; try done. by left.
Qed.

(** propagation keeps the keys of the entropy map, the adjacencies, the
    patterns, the frequencies and the cell dimensions *)
Lemma propagate_frame fuel e stack r :
  propagate' fuel e stack = Some r →
  entropy_keys (final r) = entropy_keys e ∧
  adjacencies (final r) = adjacencies e ∧
  patterns (final r) = patterns e ∧
  frequencies (final r) = frequencies e ∧
  cellDimensionX (final r) = cellDimensionX e ∧
  cellDimensionY (final r) = cellDimensionY e ∧
  rng e ≤ rng (final r).
Proof.
  apply (propagate_invariant rnd outputDimWidth outputDimHeight
           (λ e1, entropy_keys e1 = entropy_keys e ∧
                  adjacencies e1 = adjacencies e ∧
                  patterns e1 = patterns e ∧
                  frequencies e1 = frequencies e ∧
                  cellDimensionX e1 = cellDimensionX e ∧
                  cellDimensionY e1 = cellDimensionY e ∧
                  rng e ≤ rng e1)); [|done].
  intros cur e1 stack1 d e2 stack2 (Hk & HA & Hp & Hf & Hx & Hy & Hr) Hv.
  apply visit_narrows in Hv
    as [[-> _]|(nb & old & new & v & _ & _ & Hhas & _ & _ & _ & _ & ->)];
    [done|].
  unfold entropy_keys in *. cbn [entropy adjacencies patterns frequencies
    cellDimensionX cellDimensionY rng].
  rewrite set_keys_present by done. split_and!; try done. lia.
Qed.

Lemma findMinEntropyKey_key h c :
  findMinEntropyKey h = Some c → c ∈ h.*1.
Proof.
  pose proof (findMinEntropyKey_fold h) as Hf. unfold findMinEntropyKey.
  destruct (foldl _ _ h) as [[k|] [v|]]; try done.
  intros [= ->]. destruct Hf as (h1 & h2 & -> & _).
  rewrite fmap_app, fmap_cons, elem_of_app. right. by left.
Qed.

Lemma length_filter_present (l : list nat) c :
  c ∈ l → length (filter (λ k, k ≠ c) l) < length l.
Proof.
  induction l as [|k l IH]; [by intros ?%elem_of_nil|].
  rewrite filter_cons. intros [Heq|Hc]%elem_of_cons.
  - subst k. rewrite decide_False by (intros ?; done). simpl.
    pose proof (length_filter (λ k', k' ≠ c) l). lia.
  - specialize (IH Hc). case_decide; simpl; lia.
Qed.

(** what a returning [draw] did to the state *)
Lemma draw_entropy_update e o e' :
  draw' e = Some (o, e') →
  adjacencies e' = adjacencies e ∧ patterns e' = patterns e ∧
  frequencies e' = frequencies e ∧
  cellDimensionX e' = cellDimensionX e ∧
  cellDimensionY e' = cellDimensionY e ∧
  ((o = ReturnNull ∧ e' = e) ∨
   ∃ c,
     findMinEntropyKey (entropy e) = Some c ∧ c ≠ 0 ∧ c ∈ entropy_keys e ∧
     entropy_keys e' = filter (λ k, k ≠ c) (entropy_keys e) ∧
     length (entropy_keys e') < length (entropy_keys e) ∧
     rng e < rng e').
Proof.
  intros Hd.
  destruct (draw_cases e o e' Hd)
    as [[-> ->]|(c & id & r & Hmin & Hsel & Hp & -> & _)].
  { split_and!; try done. by left. }
  apply propagate_frame in Hp as (Hk & -> & -> & -> & -> & -> & Hr).
  split_and!; try done. right. exists c.
  pose proof (findMinEntropyKey_key _ _ Hmin) as Hc.
  assert (entropy_keys (final r) = filter (λ k, k ≠ c) (entropy_keys e)) as Hk'.
  { rewrite Hk. unfold entropy_keys. simpl. apply delete_keys. }
  assert (c ≠ 0) as Hc0.
  { by apply selectRandomPattern_Selected in Hsel
      as (cell & s & [= <-] & ? & _). }
  assert (length (entropy_keys (final r)) < length (entropy_keys e)) as Hlen.
  { rewrite Hk'. by apply length_filter_present. }
  assert (rng e < rng (final r)) as Hrng by (simpl in Hr; lia).
  done.
Qed.

(** a result object names the minimum-entropy cell *)
Lemma draw_step_minimum e p c x y e' :
  draw' e = Some (ReturnStep p c x y, e') →
  findMinEntropyKey (entropy e) = Some c.
Proof.
  intros Hd. apply draw_cases in Hd
    as [[? _]|(c' & id & r & Hmin & _ & _ & _ & Hr)]; [done|].
  destruct Hr as [[_ ?]|[_ [[? _]|(n & p' & _ & _ & Ho)]]]; [done..|].
  by injection Ho as -> -> -> ->.
Qed.

(** X9.  Every call of [draw] returns, and either it returns [null] with
    the whole state unchanged, or exactly the minimum-entropy cell, which is
    not the cell 0, has left the entropy map: the keys afterwards are the
    keys before without that cell, in the same order, and the random source
    has been read.  The adjacencies, the patterns, the frequencies and the
    cell dimensions are never changed. *)
Theorem draw_removes_only_the_minimum e :
  ∃ o e',
    draw' e = Some (o, e') ∧
    adjacencies e' = adjacencies e ∧ patterns e' = patterns e ∧
    frequencies e' = frequencies e ∧
    cellDimensionX e' = cellDimensionX e ∧
    cellDimensionY e' = cellDimensionY e ∧
    ((o = ReturnNull ∧ e' = e) ∨
     ∃ c,
       findMinEntropyKey (entropy e) = Some c ∧ c ≠ 0 ∧ c ∈ entropy_keys e ∧
       entropy_keys e' = filter (λ k, k ≠ c) (entropy_keys e) ∧
       length (entropy_keys e') < length (entropy_keys e) ∧
       rng e < rng e').
Proof.
  destruct (draw_total rnd outputDimWidth outputDimHeight e) as [[o e'] Hd].
  exists o, e'. split; [done|]. by apply draw_entropy_update.
Qed.

(** propagation never writes the domain of a cell that is out of the
    entropy map *)
Lemma propagate_keeps_collapsed fuel e stack r c s :
  wave e !! c = Some s → JsMap.has (entropy e) c = false →
  propagate' fuel e stack = Some r →
  wave (final r) !! c = Some s ∧ JsMap.has (entropy (final r)) c = false.
Proof.
  intros Hs Hc.
  apply (propagate_invariant rnd outputDimWidth outputDimHeight
           (λ e1, wave e1 !! c = Some s ∧ JsMap.has (entropy e1) c = false));
    [|done].
  intros cur e1 stack1 d e2 stack2 [Hs1 Hc1] Hv.
  apply visit_narrows in Hv
    as [[-> _]|(nb & old & new & v & _ & _ & Hhas & _ & _ & _ & _ & ->)];
    [done|].
  assert (nb ≠ c) as Hne by (intros ->; congruence).
  simpl. split; [by rewrite lookup_insert_ne|].
  apply not_true_iff_false. rewrite has_set. intros [?|?]; [congruence|done].
Qed.

Lemma has_collapse e c id : JsMap.has (entropy (collapse e c id)) c = false.
Proof.
  apply not_true_iff_false. simpl. rewrite has_delete. by intros [_ ?].
Qed.

(** X10.  When [draw] returns a result object for the cell [c] and the
    pattern [p], then [c] is not 0 and was the minimum-entropy cell, the
    pattern's id was a candidate of [c] with frequency at least 1, and
    afterwards the domain of [c] is the singleton of that id and [c] is out
    of the entropy map; the cell dimensions returned are those [setup]
    stored. *)
Theorem draw_result_is_committed e p c x y e' :
  draw' e = Some (ReturnStep p c x y, e') →
  c ≠ 0 ∧
  findMinEntropyKey (entropy e) = Some c ∧
  JsMap.has (entropy e') c = false ∧
  x = cellDimensionX e ∧ y = cellDimensionY e ∧
  ∃ n s,
    wave e !! c = Some s ∧ Pid n ∈ s ∧ 1 ≤ frequency_of (frequencies e) (Pid n) ∧
    patterns e !! n = Some p ∧
    wave e' !! c = Some [Pid n].
Proof.
  intros Hd. apply draw_cases in Hd
    as [[? _]|(c' & id & r & Hmin & Hsel & Hp & -> & Hr)]; [done|].
  destruct Hr as [[_ ?]|[Hr [[? _]|(n & p' & -> & Hpat & Ho)]]]; [done..|].
  injection Ho as -> -> -> ->.
  pose proof (propagate_frame _ _ _ _ Hp) as (_ & _ & Hpats & _ & Hx & Hy & _).
  assert (wave (collapse e c' (Pid n)) !! c' = Some [Pid n]) as Hwc
    by (rewrite wave_collapse; apply lookup_insert_eq).
  pose proof (propagate_keeps_collapsed _ _ _ _ c' [Pid n]
                Hwc (has_collapse e c' (Pid n)) Hp) as [Hw Hh].
  apply selectRandomPattern_Selected in Hsel
    as (cell & s & [= <-] & Hc & Hs & _ & [[Hin Hf]|[? _]]); [|done].
  split_and!; try done.
  rewrite Hpats in Hpat. by exists n, s.
Qed.

End StepFacts.

Lemma draw_result_is_committed_witness :
  ∃ e0 e1,
    setup 2 1 1 rnd_half_first 0 black_pixel 1 1 2 1 = Some e0 ∧
    draw rnd_half_first 2 1 e0 =
      Some (ReturnStep [[[Some 0; Some 0; Some 0; Some 255]]]%Z 1
                       (Some 1%Z) (Some 1%Z), e1) ∧
    1 ≠ 0 ∧
    findMinEntropyKey (entropy e0) = Some 1 ∧
    JsMap.has (entropy e1) 1 = false ∧
    Some 1%Z = cellDimensionX e0 ∧ Some 1%Z = cellDimensionY e0 ∧
    ∃ n s,
      wave e0 !! 1 = Some s ∧ Pid n ∈ s ∧
      1 ≤ frequency_of (frequencies e0) (Pid n) ∧
      patterns e0 !! n = Some [[[Some 0; Some 0; Some 0; Some 255]]]%Z ∧
      wave e1 !! 1 = Some [Pid n].
Proof.
  eexists _, _. split; [by vm_compute|]. split; [by vm_compute|].
  apply (draw_result_is_committed rnd_half_first 2 1). by vm_compute.
Defined.

(** ** Domains only shrink *)

Section Narrowing.

Variable rnd : nat → unit_q.
Variables outputDimWidth outputDimHeight : nat.

#[local] Abbreviation visit' := (visit rnd outputDimWidth outputDimHeight).
#[local] Abbreviation visit_all' := (visit_all rnd outputDimWidth outputDimHeight).
#[local] Abbreviation propagate' := (propagate rnd outputDimWidth outputDimHeight).
#[local] Abbreviation neighbor' := (neighbor outputDimWidth outputDimHeight).
#[local] Abbreviation draw' := (draw rnd outputDimWidth outputDimHeight).
#[local] Abbreviation draws' := (draws rnd outputDimWidth outputDimHeight).
#[local] Abbreviation consistent := (consistent_at outputDimWidth outputDimHeight).

(** X11.  A call of [draw] never gives a cell a domain it did not have and
    never adds a candidate: the Wave keeps its cells, and each domain
    afterwards is no longer than before and is made of members of the former
    domain, unless it is the singleton of [undefined] that a selection from
    an empty pool leaves in the collapsed cell. *)
Theorem draw_only_narrows e :
  ∃ o e',
    draw rnd outputDimWidth outputDimHeight e = Some (o, e') ∧
    (∀ cell, is_Some (wave e' !! cell) ↔ is_Some (wave e !! cell)) ∧
    ∀ cell s',
      wave e' !! cell = Some s' →
      ∃ s, wave e !! cell = Some s ∧ length s' ≤ length s ∧
           ((∀ x, x ∈ s' → x ∈ s) ∨ s' = [Undefined]).
Proof.
  destruct (draw_total rnd outputDimWidth outputDimHeight e) as [[o e'] Hd].
  exists o, e'. split; [done|].
  set (Inv := λ e1 : engine,
         (∀ cell, is_Some (wave e1 !! cell) ↔ is_Some (wave e !! cell)) ∧
         ∀ cell s',
           wave e1 !! cell = Some s' →
           ∃ s, wave e !! cell = Some s ∧ length s' ≤ length s ∧
                ((∀ x, x ∈ s' → x ∈ s) ∨ s' = [Undefined])).
  assert (Inv e) as He.
  { split; [done|]. intros cell s' Hs. exists s'. split_and!; auto. }
  change (Inv e').
  destruct (draw_cases rnd outputDimWidth outputDimHeight e o e' Hd)
    as [[_ ->]|(c & id & r & Hmin & Hsel & Hp & -> & _)]; [done|].
  apply (propagate_invariant rnd outputDimWidth outputDimHeight Inv) in Hp;
    [done| |].
  - intros cur e1 stack d e2 stack2 [Hdom Hsub] Hv.
    apply visit_narrows in Hv
      as [[-> _]|(nb & old & new & v & _ & _ & _ & Hold & Hne & Hlt & Hnew & ->)];
      [done|].
    split; cbn [wave].
    + intros cell. rewrite <-Hdom. destruct (decide (nb = cell)) as [->|?].
      * rewrite lookup_insert_eq, Hold. split; by eexists.
      * by rewrite lookup_insert_ne.
    + intros cell s'. destruct (decide (nb = cell)) as [->|?].
      * rewrite lookup_insert_eq. intros [= <-].
        destruct (Hsub _ _ Hold) as (s & Hs & Hlen & Hmem).
        exists s. split_and!; [done|lia|].
        destruct Hmem as [Hmem| ->].
        -- left. intros x Hx. by apply Hmem, Hnew.
        -- simpl in Hlt. destruct new; [done|simpl in Hlt; lia].
      * rewrite lookup_insert_ne by done. apply Hsub.
  - apply selectRandomPattern_Selected in Hsel
      as (cell & s & [= <-] & _ & Hs & Hne & Hid).
    split; rewrite wave_collapse.
    + intros cell. destruct (decide (c = cell)) as [->|?].
      * rewrite lookup_insert_eq, Hs. split; by eexists.
      * by rewrite lookup_insert_ne.
    + intros cell s'. destruct (decide (c = cell)) as [->|?].
      * rewrite lookup_insert_eq. intros [= <-]. exists s.
        split_and!; [done| |].
        -- destruct s; [done|simpl; lia].
        -- destruct Hid as [[Hin _]|[-> _]]; [left|by right].
           by intros x ->%list_elem_of_singleton.
      * rewrite lookup_insert_ne by done.
        intros Hs'. exists s'. split_and!; auto.
Qed.

(** X12.  Over any number of successive calls of [draw], the cells reported
    by result objects are pairwise distinct, none is the cell 0, each was a
    key of the entropy map at the start and is none at the end; so there are
    at most as many result objects as the entropy map had keys, and a loop
    that calls [draw] until it returns no object stops. *)
Theorem each_cell_reported_once n : ∀ e,
  ∃ os e',
    draws' n e = Some (os, e') ∧
    NoDup (reported os) ∧
    (∀ c, c ∈ reported os →
          c ≠ 0 ∧ c ∈ entropy_keys e ∧ c ∉ entropy_keys e') ∧
    (∀ k, k ∈ entropy_keys e' → k ∈ entropy_keys e) ∧
    length (reported os) + length (entropy_keys e') ≤ length (entropy_keys e).
Proof.
  induction n as [|n IH]; intros e.
  - exists [], e. split_and!; [done|apply NoDup_nil_2| |done|simpl; lia].
    by intros c ?%elem_of_nil.
  - destruct (draw_total rnd outputDimWidth outputDimHeight e) as [[o e1] Hd].
    destruct (draw_entropy_update rnd outputDimWidth outputDimHeight e o e1 Hd)
      as (_ & _ & _ & _ & _ & Hcase).
    destruct (IH e1) as (os & e' & Hds & Hnd & Hrep & Hkeys & Hlen).
    exists (o :: os), e'. split.
    { cbn [draws]. rewrite Hd. cbn. by rewrite Hds. }
    destruct Hcase as [[-> ->]|(c & Hmin & Hc0 & Hc & Hk1 & Hlt & _)].
    { done. }
    assert (∀ k, k ∈ entropy_keys e1 → k ∈ entropy_keys e ∧ k ≠ c) as Hsub.
    { intros k. rewrite Hk1, list_elem_of_filter. tauto. }
    assert (NoDup (reported os) ∧
            (∀ k, k ∈ reported os →
                  k ≠ 0 ∧ k ∈ entropy_keys e ∧ k ∉ entropy_keys e') ∧
            (∀ k, k ∈ entropy_keys e' → k ∈ entropy_keys e) ∧
            length (reported os) + length (entropy_keys e')
              ≤ length (entropy_keys e)) as Hrest.
    { split_and!; [done| | |lia].
      - intros k Hk. destruct (Hrep k Hk) as (? & Hin1 & ?).
        split_and!; [done| |done]. by destruct (Hsub k Hin1).
      - intros k Hk. by destruct (Hsub k (Hkeys k Hk)). }
    destruct o as [| |p c' x y]; [done..|].
    pose proof (draw_step_minimum rnd outputDimWidth outputDimHeight
                  e p c' x y e1 Hd) as Hmin'.
    assert (c' = c) as -> by congruence.
    change (reported (ReturnStep p c x y :: os)) with (c :: reported os).
    destruct Hrest as (_ & Hrep' & Hkeys' & _).
    split_and!; [|intros k [->|Hk]%elem_of_cons|done|simpl; lia].
    + apply NoDup_cons. split; [|done].
      intros Hin. destruct (Hrep c Hin) as (_ & Hin1 & _).
      by destruct (Hsub c Hin1).
    + split_and!; [done..|]. intros Hin. by destruct (Hsub c (Hkeys c Hin)).
    + by apply Hrep'.
Qed.

(** *** Propagation runs to a fixed point *)

(** a visit leaves its own direction settled, unless the narrowed
    neighbour is the visiting cell itself, which is then on the stack *)
Lemma visit_settles cur e stack d e' stack' :
  visit' cur e stack d = Continue e' stack' →
  consistent e' cur d ∨ cur ∈ stack'.
Proof.
  unfold visit, consistent_at.
  destruct (neighbor' cur d) as [nb|] eqn:Hnb;
    [|intros [= <- <-]; by left].
  destruct (JsMap.has (entropy e) nb) eqn:Hhas;
    [|intros [= <- <-]; left; intros ? [= <-] ?; congruence].
  set (possible := possible_in _ _ _).
  set (available := JsSet.of_list _).
  destruct (isSubSetOf available possible) eqn:Hsub.
  - intros [= <- <-]. left. intros ? [= <-] _ x Hx.
    rewrite isSubSetOf_true in Hsub.
    apply possible_in_spec, Hsub. by apply elem_of_of_list.
  - destruct (JsSet.size (intersectSets possible available) =? 0); [done|].
    intros [= <- <-].
    destruct (decide (cur = nb)) as [->|Hne]; [right; by left|].
    left. intros ? [= <-] _ x.
    unfold with_rng, with_entropy, wave_set. cbn [wave adjacencies].
    rewrite lookup_insert_eq, lookup_insert_ne by done. cbn [default].
    intros [Hx _]%elem_of_intersectSets. by apply possible_in_spec.
Qed.

(** a visit keeps every settled direction settled, unless it narrowed the
    cell, which is then on the stack; and it keeps the stack's cells *)
Lemma visit_preserves cur e stack d e' stack' c d' :
  visit' cur e stack d = Continue e' stack' →
  (consistent e c d' → consistent e' c d' ∨ c ∈ stack') ∧
  (c ∈ stack → c ∈ stack').
Proof.
  intros Hv. apply visit_narrows in Hv
    as [[-> ->]|(nb & old & new & v & -> & _ & Hhas & Hold & _ & _ & Hnew & ->)].
  { split; auto. }
  split; [|by right].
  intros Hc. destruct (decide (c = nb)) as [->|Hne]; [right; by left|].
  left. unfold consistent_at in *. intros nb' Hnb'. cbn [entropy wave adjacencies].
  rewrite has_set. intros Hh x.
  assert (JsMap.has (entropy e) nb' = true) as Hh'.
  { destruct Hh as [?| <-]; done. }
  rewrite (lookup_insert_ne _ nb c) by done.
  destruct (decide (nb = nb')) as [<-|Hne'].
  - rewrite lookup_insert_eq. cbn [default]. intros Hx%Hnew.
    apply (Hc nb Hnb' Hh'). rewrite Hold. by destruct Hx.
  - rewrite lookup_insert_ne by done. by apply Hc.
Qed.

Lemma visit_all_settles cur ds : ∀ e stack e' stack',
  visit_all' cur e stack ds = Continue e' stack' →
  (∀ c d, c < outputDimWidth * outputDimHeight →
          consistent e c d ∨ c ∈ stack ∨ (c = cur ∧ d ∈ ds)) →
  ∀ c d, c < outputDimWidth * outputDimHeight →
         consistent e' c d ∨ c ∈ stack'.
Proof.
  induction ds as [|d0 ds IH]; intros e stack e' stack'; cbn [visit_all].
  - intros [= <- <-] HJ c d Hc.
    destruct (HJ c d Hc) as [?|[?|[_ []%elem_of_nil]]]; auto.
  - destruct (visit' cur e stack d0) as [e1 stack1|] eqn:Hv; [|done].
    intros Hall HJ. apply (IH _ _ _ _ Hall). intros c d Hc.
    destruct (visit_preserves cur e stack d0 e1 stack1 c d Hv) as [Hkeep Hst].
    destruct (HJ c d Hc) as [Hok|[Hin|[-> [->|Hd]%elem_of_cons]]].
    + destruct (Hkeep Hok); auto.
    + auto.
    + destruct (visit_settles _ _ _ _ _ _ Hv); auto.
    + auto.
Qed.

Lemma directions_all d : d ∈ directions.
Proof. destruct d; unfold directions; set_solver. Qed.

Lemma propagate_settles fuel : ∀ e stack e',
  propagate' fuel e stack = Some (Completed e') →
  (∀ c d, c < outputDimWidth * outputDimHeight →
          consistent e c d ∨ c ∈ stack) →
  arc_consistent outputDimWidth outputDimHeight e'.
Proof.
  induction fuel as [|fuel IH]; intros e stack e'; [done|].
  rewrite propagate_S. destruct stack as [|cur stack].
  - intros [= <-] HJ c d Hc. by destruct (HJ c d Hc) as [?|[]%elem_of_nil].
  - destruct (visit_all' cur e stack directions) as [e1 stack1|] eqn:Hv; [|done].
    intros Hp HJ. apply (IH _ _ _ Hp).
    apply (visit_all_settles _ _ _ _ _ _ Hv). intros c d Hc.
    destruct (HJ c d Hc) as [?|[->|?]%elem_of_cons]; auto.
    right; right. split; [done|apply directions_all].
Qed.


End Narrowing.

Lemma single_pattern_consistent W H p e :
  single_pattern p e →
  (∀ cell, cell < W * H → wave e !! cell = Some [Pid 0]) →
  arc_consistent W H e.
Proof.
  intros (Hw & HA & _) Hcells c d Hc nb Hnb Hh x.
  rewrite (Hcells c Hc). cbn [default].
  destruct (wave e !! nb) as [s|] eqn:Hs; [|by intros ?%elem_of_nil].
  apply Hw in Hs as ->. cbn [default]. intros ->%list_elem_of_singleton.
  exists (Pid 0), [[Pid 0]; [Pid 0]; [Pid 0]; [Pid 0]], [Pid 0].
  split_and!; [by left|done| |by left]. by destruct d.
Qed.


(** ** Turns and mirror images *)

Lemma matrix_ext {A} n (m m' : list (list A)) :
  square n m → square n m' →
  (∀ i j, i < n → j < n → entry m i j = entry m' i j) → m = m'.
Proof.
  intros [Hl Hr] [Hl' Hr'] Hentry. apply list_eq. intros i.
  destruct (decide (i < n)) as [Hi|Hi].
  - destruct (lookup_lt_is_Some_2 m i) as [row Hrow]; [lia|].
    destruct (lookup_lt_is_Some_2 m' i) as [row' Hrow']; [lia|].
    rewrite Hrow, Hrow'. f_equal.
    assert (length row = n) as Hn
      by (eapply (proj1 (Forall_forall _ _) Hr), list_elem_of_lookup_2, Hrow).
    assert (length row' = n) as Hn'
      by (eapply (proj1 (Forall_forall _ _) Hr'), list_elem_of_lookup_2, Hrow').
    apply list_eq. intros j. destruct (decide (j < n)) as [Hj|Hj].
    + specialize (Hentry i j Hi Hj). unfold entry in Hentry.
      by rewrite Hrow, Hrow' in Hentry.
    + by rewrite !lookup_ge_None_2 by lia.
  - by rewrite !lookup_ge_None_2 by lia.
Qed.

Lemma square_reverse {A} n (m : list (list A)) : square n m → square n (reverse m).
Proof.
  intros [Hl Hr]. split; [by rewrite length_reverse|].
  by apply Forall_reverse.
Qed.

Lemma square_mirror {A} n (m : list (list A)) :
  square n m → square n (reverse <$> m).
Proof.
  intros [Hl Hr]. split; [by rewrite length_fmap|].
  rewrite Forall_fmap. eapply Forall_impl; [done|].
  intros row Hrow. simpl. by rewrite length_reverse.
Qed.

Lemma entry_reverse {A} n (m : list (list A)) i j :
  square n m → i < n → entry (reverse m) i j = entry m (n - 1 - i) j.
Proof.
  intros [Hl _] Hi. unfold entry. rewrite reverse_lookup by lia.
  by replace (length m - S i) with (n - 1 - i) by lia.
Qed.

Lemma entry_mirror {A} n (m : list (list A)) i j :
  square n m → i < n → j < n →
  entry (reverse <$> m) i j = entry m i (n - 1 - j).
Proof.
  intros [Hl Hr] Hi Hj. unfold entry. rewrite list_lookup_fmap.
  destruct (lookup_lt_is_Some_2 m i) as [row Hrow]; [lia|].
  rewrite Hrow. simpl.
  assert (length row = n) as Hn
    by (eapply (proj1 (Forall_forall _ _) Hr), list_elem_of_lookup_2, Hrow).
  rewrite reverse_lookup by lia.
  by replace (length row - S j) with (n - 1 - j) by lia.
Qed.

Lemma mirror_mirror {A} (m : list (list A)) : reverse <$> (reverse <$> m) = m.
Proof.
  rewrite <-list_fmap_compose. rewrite <-(list_fmap_id m) at 2.
  apply list_fmap_ext. intros i row _. simpl. apply reverse_involutive.
Qed.

Lemma turn_twice n (c : pattern) :
  1 ≤ n → square n c → turn (turn c) = reverse (reverse <$> c).
Proof.
  intros Hn Hc.
  destruct (turn_square n c Hn Hc) as [_ [Hs1 He1]].
  destruct (turn_square n _ Hn Hs1) as [_ [Hs2 He2]].
  apply (matrix_ext n); [done|by apply square_reverse, square_mirror|].
  intros i j Hi Hj.
  rewrite He2, He1 by lia.
  rewrite (entry_reverse n) by (done || by apply square_mirror).
  rewrite (entry_mirror n) by (done || lia).
  by replace (n - 1 - (n - 1 - i)) with i by lia.
Qed.

(** X14.  On an N×N window, two quarter turns are the reversal of the rows
    and of each row, and four quarter turns give the window back.  Hence
    four of the twelve variants pushed for a window repeat earlier ones (the
    mirror images of the half turn are those of the window, the mirror
    images of the three-quarter turn those of the quarter turn), and a
    window yields at most eight distinct patterns. *)
Theorem turns_and_mirrors n (c : pattern) :
  1 ≤ n → square n c →
  turn (turn c) = reverse (reverse <$> c) ∧
  turn (turn (turn (turn c))) = c ∧
  symmetry_variants c !! 7 = symmetry_variants c !! 2 ∧
  symmetry_variants c !! 8 = symmetry_variants c !! 1 ∧
  symmetry_variants c !! 10 = symmetry_variants c !! 5 ∧
  symmetry_variants c !! 11 = symmetry_variants c !! 4 ∧
  length (remove_dups (symmetry_variants c)) ≤ 8.
Proof.
  intros Hn Hc.
  destruct (turn_square n c Hn Hc) as [_ [Hs1 _]].
  destruct (turn_square n _ Hn Hs1) as [_ [Hs2 _]].
  pose proof (turn_twice n c Hn Hc) as H2.
  pose proof (turn_twice n _ Hn Hs1) as H3.
  pose proof (turn_twice n _ Hn Hs2) as H4.
  assert (reverse (turn (turn c)) = reverse <$> c) as Ha
    by (by rewrite H2, reverse_involutive).
  assert (reverse <$> turn (turn c) = reverse c) as Hb
    by (by rewrite H2, fmap_reverse, mirror_mirror).
  assert (reverse (turn (turn (turn c))) = reverse <$> turn c) as Hc'
    by (by rewrite H3, reverse_involutive).
  assert (reverse <$> turn (turn (turn c)) = reverse (turn c)) as Hd
    by (by rewrite H3, fmap_reverse, mirror_mirror).
  split_and!.
  - done.
  - by rewrite H4, H2, fmap_reverse, reverse_involutive, mirror_mirror.
  - unfold symmetry_variants. simpl. by rewrite Ha.
  - unfold symmetry_variants. simpl. by rewrite Hb.
  - unfold symmetry_variants. simpl. by rewrite Hc'.
  - unfold symmetry_variants. simpl. by rewrite Hd.
  - change 8 with
      (length [c; reverse c; reverse <$> c; turn c; reverse (turn c);
               reverse <$> turn c; turn (turn c); turn (turn (turn c))]).
    apply submseteq_length, NoDup_submseteq; [apply NoDup_remove_dups|].
    intros p Hp. rewrite elem_of_remove_dups in Hp.
    unfold symmetry_variants in Hp.
    rewrite Ha, Hb, Hc', Hd in Hp.
    repeat (apply elem_of_cons in Hp as [->|Hp]);
      [..|by apply elem_of_nil in Hp];
      rewrite !elem_of_cons; tauto.
Qed.

Lemma turns_and_mirrors_witness :
  let c := cmat 3 stripes 3 1 0 0 in
  turn (turn c) = reverse (reverse <$> c) ∧
  turn (turn (turn (turn c))) = c ∧
  symmetry_variants c !! 7 = symmetry_variants c !! 2 ∧
  symmetry_variants c !! 8 = symmetry_variants c !! 1 ∧
  symmetry_variants c !! 10 = symmetry_variants c !! 5 ∧
  symmetry_variants c !! 11 = symmetry_variants c !! 4 ∧
  length (remove_dups (symmetry_variants c)) ≤ 8.
Proof.
  apply (turns_and_mirrors 3 (cmat 3 stripes 3 1 0 0)); [lia|].
  apply cmat_square.
Defined.

(** ** The overlap tests *)

Lemma filter_index_app {A} keep (l1 l2 : list A) : ∀ i,
  filter_index keep i (l1 ++ l2) =
  filter_index keep i l1 ++ filter_index keep (i + length l1) l2.
Proof.
  induction l1 as [|a l1 IH]; intros i; cbn [filter_index app length].
  - by rewrite Nat.add_0_r.
  - rewrite IH. replace (S i + length l1) with (i + S (length l1)) by lia.
    by destruct (keep i).
Qed.

Lemma filter_index_ext {A} keep keep' (l : list A) : ∀ a b,
  (∀ j, j < length l → keep (a + j) = keep' (b + j)) →
  filter_index keep a l = filter_index keep' b l.
Proof.
  induction l as [|x l IH]; intros a b Hk; [done|]. cbn [filter_index].
  pose proof (Hk 0 ltac:(simpl; lia)) as H0. rewrite !Nat.add_0_r in H0.
  rewrite H0, (IH (S a) (S b)); [done|].
  intros j Hj. specialize (Hk (S j) ltac:(simpl; lia)).
  by replace (S a + j) with (a + S j) by lia;
     replace (S b + j) with (b + S j) by lia.
Qed.

Lemma filter_index_keep_all {A} keep (l : list A) : ∀ a,
  (∀ j, j < length l → keep (a + j) = true) → filter_index keep a l = l.
Proof.
  induction l as [|x l IH]; intros a Hk; [done|]. cbn [filter_index].
  pose proof (Hk 0 ltac:(simpl; lia)) as H0. rewrite Nat.add_0_r in H0.
  rewrite H0, IH; [done|]. intros j Hj.
  specialize (Hk (S j) ltac:(simpl; lia)).
  by replace (S a + j) with (a + S j) by lia.
Qed.

(** dropping the entry at index [m] *)
Lemma filter_index_skip {A} m (l : list A) : ∀ a,
  a ≤ m →
  filter_index (λ j, negb (j =? m)) a l = take (m - a) l ++ drop (S (m - a)) l.
Proof.
  induction l as [|x l IH]; intros a Ha; [by rewrite take_nil, drop_nil|].
  cbn [filter_index]. destruct (decide (a = m)) as [->|Hne].
  - rewrite Nat.eqb_refl, Nat.sub_diag. cbn [negb take drop app].
    apply filter_index_keep_all. intros j _.
    apply negb_true_iff, Nat.eqb_neq. lia.
  - assert ((a =? m) = false) as -> by (apply Nat.eqb_neq; lia).
    cbn [negb]. rewrite IH by lia.
    replace (m - a) with (S (m - S a)) by lia. done.
Qed.

(** the flattened pattern without the entries of column [k] *)
Lemma filter_index_column N k (m : pattern) : ∀ a,
  k < N → Forall (λ row, length row = N) m →
  filter_index (rem_differs N k) (a * N) (flat m) =
  concat ((λ row, take k row ++ drop (S k) row) <$> m).
Proof.
  unfold flat. induction m as [|row m IH]; intros a Hk Hm; [done|].
  apply Forall_cons in Hm as [Hrow Hm].
  rewrite fmap_cons, !concat_cons, filter_index_app, Hrow.
  replace (a * N + N) with (S a * N) by lia. rewrite IH by done. f_equal.
  rewrite (filter_index_ext _ (λ j, negb (j =? k)) row (a * N) 0).
  - rewrite filter_index_skip by lia. by rewrite Nat.sub_0_r.
  - intros j Hj. unfold rem_differs.
    assert ((N =? 0) = false) as -> by (apply Nat.eqb_neq; lia).
    do 2 f_equal. rewrite Nat.add_comm, Nat.Div0.mod_add.
    apply Nat.mod_small. lia.
Qed.

Lemma concat_inj_rows {A} k (l1 : list (list A)) : ∀ l2,
  Forall (λ r, length r = k) l1 → Forall (λ r, length r = k) l2 →
  length l1 = length l2 → concat l1 = concat l2 → l1 = l2.
Proof.
  induction l1 as [|r1 l1 IH]; intros [|r2 l2] H1 H2 Hlen; try done.
  apply Forall_cons in H1 as [Hr1 H1]. apply Forall_cons in H2 as [Hr2 H2].
  rewrite !concat_cons. intros [-> Hc]%app_inj_1; [|congruence].
  f_equal. apply IH; auto.
Qed.

Lemma take_concat_rows {A} N (m : list (list A)) : ∀ k,
  Forall (λ r, length r = N) m → take (k * N) (concat m) = concat (take k m).
Proof.
  induction m as [|row m IH]; intros k Hm;
    [by rewrite take_nil; cbn [concat]; rewrite take_nil|].
  apply Forall_cons in Hm as [Hrow Hm]. destruct k as [|k]; [done|].
  cbn [take concat]. rewrite take_app_ge by (rewrite Hrow; lia).
  f_equal.
  replace (S k * N - length row) with (k * N) by lia. by apply IH.
Qed.

Lemma isHorizontallyAdjacent_overlaps N (p q : pattern) :
  1 ≤ N → square N p → square N q →
  isHorizontallyAdjacent p q N = true ↔ overlaps N Left p q.
Proof.
  intros HN [Hlp Hp] [Hlq Hq].
  unfold isHorizontallyAdjacent, overlaps. rewrite bool_decide_eq_true.
  pose proof (filter_index_column N (N - 1) p 0 ltac:(lia) Hp) as H1.
  pose proof (filter_index_column N 0 q 0 ltac:(lia) Hq) as H2.
  cbn [Nat.mul] in H1, H2. cbv zeta. rewrite H1, H2. clear H1 H2.
  assert ((λ row : list pixel, take (N - 1) row ++ drop (S (N - 1)) row) <$> p
          = take (N - 1) <$> p) as ->.
  { apply Forall_fmap_ext_1. eapply Forall_impl; [exact Hp|].
    intros row Hrow. cbv beta in *. rewrite drop_ge by lia. apply app_nil_r. }
  assert ((λ row : list pixel, take 0 row ++ drop 1 row) <$> q = drop 1 <$> q)
    as -> by done.
  split; [|by intros ->].
  apply (concat_inj_rows (N - 1)).
  - rewrite Forall_fmap. eapply Forall_impl; [exact Hp|].
    intros row Hrow. unfold compose. cbv beta in *. rewrite length_take. lia.
  - rewrite Forall_fmap. eapply Forall_impl; [exact Hq|].
    intros row Hrow. unfold compose. cbv beta in *. rewrite length_drop. lia.
  - rewrite !length_fmap. lia.
Qed.

Lemma isVerticallyAdjacent_overlaps N (p q : pattern) :
  1 ≤ N → square N p → square N q →
  isVerticallyAdjacent p q N = true ↔ overlaps N Up p q.
Proof.
  intros HN [Hlp Hp] [Hlq Hq].
  unfold isVerticallyAdjacent, overlaps, flat. rewrite bool_decide_eq_true.
  replace (N * N - N) with ((N - 1) * N) by nia.
  rewrite (take_concat_rows N) by done.
  destruct q as [|row q]; [simpl in Hlq; lia|].
  apply Forall_cons in Hq as [Hrow Hq].
  rewrite concat_cons, drop_app_length' by done. cbn [drop].
  split; [|by intros ->].
  apply (concat_inj_rows N); [by apply Forall_take|done|].
  rewrite length_take, drop_0. simpl in Hlq. lia.
Qed.

(** X15.  On N×N patterns the two tests, which compare filtered and sliced
    flattenings, are overlap tests: the horizontal one holds exactly when
    the first pattern without its last column equals the second without its
    first column, the vertical one exactly when the first pattern without
    its last row equals the second without its first row. *)
Theorem adjacency_tests_compare_overlaps N (p q : pattern) :
  1 ≤ N → square N p → square N q →
  (isHorizontallyAdjacent p q N = true ↔ overlaps N Left p q) ∧
  (isVerticallyAdjacent p q N = true ↔ overlaps N Up p q).
Proof.
  intros HN Hp Hq. split.
  - by apply isHorizontallyAdjacent_overlaps.
  - by apply isVerticallyAdjacent_overlaps.
Qed.

Lemma adjacency_tests_compare_overlaps_witness :
  let p := cmat 3 stripes 3 1 0 0 in
  let q := cmat 3 stripes 3 1 2 0 in
  (isHorizontallyAdjacent p q 3 = true ↔ overlaps 3 Left p q) ∧
  (isVerticallyAdjacent p q 3 = true ↔ overlaps 3 Up p q).
Proof.
  apply (adjacency_tests_compare_overlaps 3 (cmat 3 stripes 3 1 0 0)
           (cmat 3 stripes 3 1 2 0)); [lia|apply cmat_square..].
Defined.

(** ** The pattern library and the rules after [setup] *)

Lemma symmetry_variants_square N (c : pattern) :
  1 ≤ N → square N c → Forall (square N) (symmetry_variants c).
Proof.
  intros HN Hc.
  destruct (turn_square N c HN Hc) as [_ [H1 _]].
  destruct (turn_square N _ HN H1) as [_ [H2 _]].
  destruct (turn_square N _ HN H2) as [_ [H3 _]].
  unfold symmetry_variants. cbv zeta.
  repeat first [apply Forall_cons_2 | apply Forall_nil_2];
    auto using square_reverse, square_mirror.
Qed.

(** the patterns [setup] generates before deduplication *)
Lemma elem_of_generated N img w h (p : pattern) :
  p ∈ (seq 0 h ≫= λ y, seq 0 w ≫= λ x, symmetry_variants (cmat N img w h x y)) ↔
  ∃ x y, x < w ∧ y < h ∧ p ∈ symmetry_variants (cmat N img w h x y).
Proof.
  rewrite list_elem_of_bind. split.
  - intros (y & (x & Hp & Hx%elem_of_seq)%list_elem_of_bind & Hy%elem_of_seq).
    exists x, y. split_and!; [lia|lia|done].
  - intros (x & y & Hx & Hy & Hp). exists y. split.
    + apply list_elem_of_bind. exists x. split; [done|].
      apply elem_of_seq. lia.
    + apply elem_of_seq. lia.
Qed.

Lemma setup_patterns_square W H N rnd pos img w h cw ch e0 :
  1 ≤ N →
  setup W H N rnd pos img w h cw ch = Some e0 →
  Forall (square N) (patterns e0).
Proof.
  intros HN. rewrite setup_succeeds by done. intros [= <-].
  cbn [patterns]. apply Forall_forall. intros p Hp.
  apply deduplicate_state, elem_of_generated in Hp as (x & y & _ & _ & Hp).
  pose proof (symmetry_variants_square N _ HN (cmat_square N img w h x y)) as Hsq.
  rewrite Forall_forall in Hsq. by apply Hsq.
Qed.

Lemma setup_frequencies_positive W H N rnd pos img w h cw ch e0 :
  1 ≤ N →
  setup W H N rnd pos img w h cw ch = Some e0 →
  ∀ n, n < length (patterns e0) → 1 ≤ frequency_of (frequencies e0) (Pid n).
Proof.
  intros HN. rewrite setup_succeeds by done. intros [= <-].
  cbn [patterns frequencies frequency_of]. intros n Hn.
  rewrite freqs_of_deduplicate.
  destruct (lookup_lt_is_Some_2 _ _ Hn) as [p Hp].
  rewrite list_lookup_fmap, Hp. cbn [fmap option_fmap option_map default].
  apply occurrences_present, deduplicate_state.
  by eapply list_elem_of_lookup_2.
Qed.

(** X16.  When [setup] has run, the patterns are pairwise distinct, they
    are exactly the twelve variants of the windows at the positions of the
    sample, each an N×N matrix; the frequency table has one entry per
    pattern, each at least 1, and the entries add up to twelve times the
    number of pixels of the sample. *)
Theorem setup_pattern_library W H N rnd pos img w h cw ch e0 :
  1 ≤ N →
  setup W H N rnd pos img w h cw ch = Some e0 →
  NoDup (patterns e0) ∧
  (∀ p, p ∈ patterns e0 ↔
        ∃ x y, x < w ∧ y < h ∧ p ∈ symmetry_variants (cmat N img w h x y)) ∧
  Forall (square N) (patterns e0) ∧
  length (frequencies e0) = length (patterns e0) ∧
  (∀ n, n < length (patterns e0) → 1 ≤ frequency_of (frequencies e0) (Pid n)) ∧
  sum_list (frequencies e0) = 12 * (w * h).
Proof.
  intros HN Hsetup.
  pose proof (setup_patterns_square _ _ _ _ _ _ _ _ _ _ _ HN Hsetup) as Hsq.
  pose proof (setup_frequencies_positive _ _ _ _ _ _ _ _ _ _ _ HN Hsetup) as Hf.
  rewrite setup_succeeds in Hsetup by done. injection Hsetup as <-.
  cbn [patterns frequencies] in *.
  set (allPatterns := seq 0 h ≫= _) in *.
  destruct (deduplicate_state allPatterns) as (Hnd & Hmem & _).
  split_and!; [done| |done| |done|].
  - intros p. rewrite Hmem. apply elem_of_generated.
  - by rewrite freqs_of_deduplicate, length_fmap.
  - rewrite frequencies_total. unfold allPatterns.
    rewrite (length_bind_const _ _ (w * 12)), length_seq; [lia|].
    intros y. by rewrite (length_bind_const _ _ 12), length_seq.
Qed.

Lemma setup_pattern_library_witness :
  ∃ e0,
    setup 2 1 3 rnd_half_first 0 stripes 3 1 2 1 = Some e0 ∧
    NoDup (patterns e0) ∧
    (∀ p, p ∈ patterns e0 ↔
          ∃ x y, x < 3 ∧ y < 1 ∧ p ∈ symmetry_variants (cmat 3 stripes 3 1 x y)) ∧
    Forall (square 3) (patterns e0) ∧
    length (frequencies e0) = length (patterns e0) ∧
    (∀ n, n < length (patterns e0) → 1 ≤ frequency_of (frequencies e0) (Pid n)) ∧
    sum_list (frequencies e0) = 12 * (3 * 1).
Proof.
  eexists. split; [by vm_compute|].
  apply (setup_pattern_library 2 1 3 rnd_half_first 0 stripes 3 1 2 1);
    [lia|by vm_compute].
Defined.

Lemma compatible_overlaps N (ps : list pattern) i d j p q :
  1 ≤ N → square N p → square N q →
  ps !! i = Some p → ps !! j = Some q →
  compatible N ps i d j = true ↔ overlaps N d p q.
Proof.
  intros HN Hp Hq Hi Hj. unfold compatible. rewrite Hi, Hj. cbn [default].
  destruct d; cbn [overlaps].
  - by apply isHorizontallyAdjacent_overlaps.
  - by apply (isHorizontallyAdjacent_overlaps N q p).
  - by apply isVerticallyAdjacent_overlaps.
  - by apply (isVerticallyAdjacent_overlaps N q p).
Qed.

(** X17.  The rules [setup] stores are the overlap relation of its
    patterns: the id [j] is in the set of [i] for a direction exactly when
    both are ids of patterns and the pattern [j], placed one step in that
    direction, agrees with the pattern [i] where the two overlap. *)
Theorem setup_rules_are_overlaps W H N rnd pos img w h cw ch e0 :
  1 ≤ N →
  setup W H N rnd pos img w h cw ch = Some e0 →
  ∀ i d j,
    adjacent (adjacencies e0) i d j ↔
    ∃ p q, patterns e0 !! i = Some p ∧ patterns e0 !! j = Some q ∧
           overlaps N d p q.
Proof.
  intros HN Hsetup i d j.
  pose proof (setup_patterns_square _ _ _ _ _ _ _ _ _ _ _ HN Hsetup) as Hsq.
  rewrite Forall_lookup in Hsq.
  apply setup_adjacencies in Hsetup as [-> _].
  rewrite build_adjacencies_spec. split.
  - intros (Hi & Hj & Hc).
    destruct (lookup_lt_is_Some_2 _ _ Hi) as [p Hp].
    destruct (lookup_lt_is_Some_2 _ _ Hj) as [q Hq].
    exists p, q. split_and!; [done..|].
    by apply (compatible_overlaps N (patterns e0) i d j); eauto.
  - intros (p & q & Hp & Hq & Ho).
    split_and!; [by eapply lookup_lt_Some..|].
    by apply (compatible_overlaps N (patterns e0) i d j p q); eauto.
Qed.

Lemma setup_rules_are_overlaps_witness :
  ∃ e0,
    setup 2 1 3 rnd_half_first 0 stripes 3 1 2 1 = Some e0 ∧
    ∀ i d j,
      adjacent (adjacencies e0) i d j ↔
      ∃ p q, patterns e0 !! i = Some p ∧ patterns e0 !! j = Some q ∧
             overlaps 3 d p q.
Proof.
  eexists. split; [by vm_compute|].
  apply (setup_rules_are_overlaps 2 1 3 rnd_half_first 0 stripes 3 1 2 1);
    [lia|by vm_compute].
Defined.

(** ** Rules that forbid nothing: patterns of one pixel *)

Section Unconstrained.

Variable rnd : nat → unit_q.
Variables outputDimWidth outputDimHeight : nat.

Lemma unconstrained_member e cell s x :
  unconstrained e → wave e !! cell = Some s → x ∈ s →
  ∃ n, x = Pid n ∧ n < length (patterns e).
Proof.
  intros (_ & _ & Hw) Hs Hx.
  destruct (Hw _ _ Hs) as [->|(n & Hn & ->)].
  - unfold all_ids in Hx.
    apply list_elem_of_fmap in Hx as (n & -> & Hn%elem_of_seq).
    exists n. split; [done|lia].
  - apply list_elem_of_singleton in Hx as ->. by exists n.
Qed.

(** no neighbour of a collapsed cell has anything to lose *)
Lemma visit_unconstrained e cur n stack d :
  unconstrained e → n < length (patterns e) → wave e !! cur = Some [Pid n] →
  visit rnd outputDimWidth outputDimHeight cur e stack d = Continue e stack.
Proof.
  intros He Hn Hcur. unfold visit.
  destruct (neighbor _ _ cur d) as [nb|]; [|done].
  destruct (JsMap.has (entropy e) nb); [|done].
  cbv zeta.
  assert (isSubSetOf (JsSet.of_list (default [] (wave e !! nb)))
                     (possible_in (adjacencies e) (wave e !! cur) d) = true)
    as ->; [|done].
  apply isSubSetOf_true. intros x Hx. rewrite elem_of_of_list in Hx.
  destruct (wave e !! nb) as [s|] eqn:Hs; [|by apply elem_of_nil in Hx].
  simpl in Hx.
  destruct (unconstrained_member e nb s x He Hs Hx) as (j & -> & Hj).
  apply possible_in_spec. rewrite Hcur. simpl.
  destruct He as (HA & _).
  destruct (HA n d j Hn Hj) as (sets & s' & ? & ? & ?).
  exists (Pid n), sets, s'. split_and!; [by left|done..].
Qed.

Lemma visit_all_unconstrained e cur n ds : ∀ stack,
  unconstrained e → n < length (patterns e) → wave e !! cur = Some [Pid n] →
  visit_all rnd outputDimWidth outputDimHeight cur e stack ds = Continue e stack.
Proof.
  induction ds as [|d ds IH]; intros stack He Hn Hcur; cbn [visit_all]; [done|].
  rewrite (visit_unconstrained e cur n) by done. by apply IH.
Qed.

Lemma collapse_unconstrained e c s n :
  unconstrained e → wave e !! c = Some s → Pid n ∈ s →
  unconstrained (collapse e c (Pid n)).
Proof.
  intros He Hs Hin.
  destruct (unconstrained_member e c s _ He Hs Hin) as (k & [= <-] & Hn).
  destruct He as (HA & Hf & Hw). split_and!; [done..|].
  intros cell s'. rewrite wave_collapse.
  change (patterns (collapse e c (Pid n))) with (patterns e).
  destruct (decide (c = cell)) as [->|?].
  - rewrite lookup_insert_eq. intros [= <-]. right. by exists n.
  - rewrite lookup_insert_ne by done. apply Hw.
Qed.

(** a step under such rules returns [null] or collapses one cell; the
    propagation removes nothing and meets no contradiction *)
Lemma draw_unconstrained e o e' :
  unconstrained e →
  draw rnd outputDimWidth outputDimHeight e = Some (o, e') →
  (unconstrained e' ∧ patterns e' = patterns e) ∧ o ≠ ReturnUndefined.
Proof.
  intros He. unfold draw.
  destruct (JsMap.size (entropy e) =? 0); [by intros [= <- <-]|].
  destruct (findMinEntropyKey (entropy e)) as [c|]; [|by intros [= <- <-]].
  destruct (selectRandomPattern _ _ _ _) as [|id] eqn:Hsel;
    [by intros [= <- <-]|].
  apply selectRandomPattern_Selected in Hsel
    as (cell & s & [= <-] & Hc & Hs & Hne & Hid).
  assert (∃ n, id = Pid n ∧ n < length (patterns e) ∧ Pid n ∈ s)
    as (n & -> & Hn & Hin).
  { destruct Hid as [[Hin _]|[-> Hzero]].
    - destruct (unconstrained_member e c s id He Hs Hin) as (n & -> & Hn).
      by exists n.
    - destruct s as [|x s]; [done|].
      destruct (unconstrained_member e c (x :: s) x He Hs) as (n & -> & Hn);
        [by left|].
      destruct He as (_ & Hf & _). specialize (Hf n Hn).
      rewrite Hzero in Hf by by left. lia. }
  pose proof (collapse_unconstrained e c s n He Hs Hin) as He1.
  assert (wave (collapse e c (Pid n)) !! c = Some [Pid n]) as Hw1
    by (rewrite wave_collapse; apply lookup_insert_eq).
  assert (patterns (collapse e c (Pid n)) = patterns e) as Hp1 by done.
  set (e1 := collapse e c (Pid n)) in *.
  unfold propagation_fuel. cbn [length]. rewrite propagate_S.
  rewrite (visit_all_unconstrained e1 c n) by (rewrite ?Hp1; done).
  rewrite propagate_S.
  destruct (patterns e1 !! n); by intros [= <- <-].
Qed.

End Unconstrained.

(** with one pixel per pattern every two patterns overlap *)
Lemma overlaps_unit d (p q : pattern) :
  square 1 p → square 1 q → overlaps 1 d p q.
Proof.
  intros [Hlp Hp] [Hlq Hq].
  destruct p as [|rp [|]]; try done. destruct q as [|rq [|]]; try done.
  apply Forall_cons_1 in Hp as [Hrp _]. apply Forall_cons_1 in Hq as [Hrq _].
  destruct rp as [|a [|]]; try done. destruct rq as [|b [|]]; try done.
  by destruct d.
Qed.

Lemma setup_unconstrained W H rnd pos img w h cw ch e0 :
  setup W H 1 rnd pos img w h cw ch = Some e0 → unconstrained e0.
Proof.
  intros Hsetup.
  pose proof (setup_patterns_square _ _ _ _ _ _ _ _ _ _ _ (Nat.le_refl 1) Hsetup)
    as Hsq.
  pose proof (setup_frequencies_positive _ _ _ _ _ _ _ _ _ _ _
                (Nat.le_refl 1) Hsetup) as Hf.
  rewrite Forall_lookup in Hsq.
  apply setup_adjacencies in Hsetup as [HA Hw].
  split_and!; [|done|].
  - intros i d j Hi Hj. rewrite HA. apply build_adjacencies_spec.
    split_and!; [done..|].
    destruct (lookup_lt_is_Some_2 _ _ Hi) as [p Hp].
    destruct (lookup_lt_is_Some_2 _ _ Hj) as [q Hq].
    apply (compatible_overlaps 1 (patterns e0) i d j p q); eauto.
    apply overlaps_unit; eauto.
  - intros cell s. rewrite Hw, waveInit_lookup. case_decide; [|done].
    intros [= <-]. by left.
Qed.

(** X18.  With patterns of one pixel ([patternDim] 1) the rules forbid
    nothing: however many times [draw] is called after [setup] and whatever
    the random source yields, no call reports a contradiction, and every
    domain is still the full set of ids or the single id its cell was
    collapsed to. *)
Theorem unit_patterns_never_contradict W H rnd pos img w h cw ch e0 :
  setup W H 1 rnd pos img w h cw ch = Some e0 →
  ∀ n, ∃ os e',
    draws rnd W H n e0 = Some (os, e') ∧
    (ReturnUndefined ∉ os) ∧
    ∀ cell s, wave e' !! cell = Some s →
              s = all_ids (length (patterns e0)) ∨
              ∃ k, k < length (patterns e0) ∧ s = [Pid k].
Proof.
  intros Hsetup%setup_unconstrained n.
  destruct (draws_total rnd W H n e0) as [[os e'] Hd].
  exists os, e'. split; [done|].
  apply (draws_invariant rnd W H
           (λ e1, unconstrained e1 ∧ patterns e1 = patterns e0)
           (λ o, o ≠ ReturnUndefined)) in Hd; [| |done].
  - destruct Hd as [[(_ & _ & Hw) Hp] Hos]. split.
    + rewrite Forall_forall in Hos. intros Hin. by apply (Hos _ Hin).
    + rewrite <-Hp. apply Hw.
  - intros e1 o e2 [He1 Hp1] Hdraw.
    destruct (draw_unconstrained rnd W H e1 o e2 He1 Hdraw) as [[? Hp2] ?].
    split; [|done]. split; [done|congruence].
Qed.

Lemma unit_patterns_never_contradict_witness :
  ∃ e0,
    setup 2 1 1 rnd_half_first 0 stripes 3 1 2 1 = Some e0 ∧
    ∀ n, ∃ os e',
      draws rnd_half_first 2 1 n e0 = Some (os, e') ∧
      (ReturnUndefined ∉ os) ∧
      ∀ cell s, wave e' !! cell = Some s →
                s = all_ids (length (patterns e0)) ∨
                ∃ k, k < length (patterns e0) ∧ s = [Pid k].
Proof.
  eexists. split; [by vm_compute|].
  apply (unit_patterns_never_contradict 2 1 rnd_half_first 0 stripes 3 1 2 1).
  by vm_compute.
Defined.

(** ** The window read at a position of the sample *)

(** X19.  The window at [(x, y)] holds, in row [n] and column [i], the
    four channels of the sample's pixel in column [(x + i) mod w] and row
    [(y + n + i / w) mod h]: it wraps around both edges of the sample, and
    while the window is no wider than the sample ([i < w]) the row is
    [(y + n) mod h]. *)
Theorem cmat_wraps_around N img w h x y n i :
  x < w → y < h → n < N → i < N →
  entry (cmat N img w h x y) n i =
    Some (read_pixel img
            ((((y + n + i / w) mod h) * w + (x + i) mod w) * 4)) ∧
  (i < w → (y + n + i / w) mod h = (y + n) mod h).
Proof.
  intros Hx Hy Hn Hi. split.
  - unfold entry, cmat, kernel.
    rewrite !list_lookup_fmap, lookup_seq_lt by done. cbn.
    rewrite !list_lookup_fmap, lookup_seq_lt by done. cbn.
    replace (i + n * w + w * y) with (i + (n + y) * w) by lia.
    replace (x + (i + n * w)) with (x + i + n * w) by lia.
    rewrite Nat.div_add, Nat.Div0.mod_add by lia.
    by replace (i `div` w + (n + y)) with (y + n + i `div` w) by lia.
  - intros Hiw. by rewrite Nat.div_small, Nat.add_0_r.
Qed.

Lemma cmat_wraps_around_witness :
  entry (cmat 3 stripes 3 1 2 0) 1 2 =
    Some (read_pixel stripes ((((0 + 1 + 2 / 3) mod 1) * 3 + (2 + 2) mod 3) * 4)) ∧
  (2 < 3 → (0 + 1 + 2 / 3) mod 1 = (0 + 1) mod 1).
Proof.
  apply (cmat_wraps_around 3 stripes 3 1 2 0 1 2); lia.
Defined.
